(** * Path weighting and effective height of a scintillometer transect

    A shallow embedding of [scintillometry/backend/transects.py] and of
    the profile-construction operations its specification describes.

    Numbers.  Python floats are modelled by exact real numbers, extended
    with the IEEE-754 special values [+inf], [-inf] and [NaN] where the
    code can produce or test them.  Rounding, overflow and the sign of
    zero are not modelled: every equality between results below is an
    equality of exact arithmetic.  The normalised positions of a
    transect are finite reals, since [parse_transect] rejects a position
    that is NaN or outside [0, 1]; the heights are floats and may be
    NaN.  The kernel and the weights are also given on binary64
    numbers, with [scipy.special.jv] as a parameter, for the properties
    that hold bit for bit, and the effective height is also given with
    the exponents as the doubles the program holds, to show where an
    equality of exact arithmetic is not one of the program. *)

From Stdlib Require Import ZArith Reals Lra Lia List String Ascii Bool Arith.
From Stdlib Require PrimFloat SpecFloat FloatOps FloatAxioms.
Import ListNotations.

Open Scope R_scope.

(** ** The Bessel function of the first kind, [scipy.special.jv]

    For an order [n : nat],
    [J_n(z) = sum_k (-1)^k / (k! (k+n)!) * (z/2)^(2k+n)]
    which is [(z/2)^n] times a power series in [(z/2)^2]. *)

Module Bessel.

Definition coef (n k : nat) : R :=
  (-1) ^ k / (INR (fact k) * INR (fact (k + n))).

Definition series_in (n : nat) (t l : R) : Prop :=
  infinite_sum (fun k : nat => coef n k * t ^ k) l.

Lemma coef_no_R0 (n k : nat) : coef n k <> 0.
Proof.
  unfold coef, Rdiv.
  apply Rmult_integral_contrapositive_currified.
  - apply pow_nonzero; lra.
  - apply Rinv_neq_0_compat.
    apply Rmult_integral_contrapositive_currified; apply INR_fact_neq_0.
Qed.

Lemma coef_succ (n k : nat) :
  coef n (S k) = - coef n k / (INR (S k) * INR (S (k + n))).
Proof.
  unfold coef.
  change (S k + n)%nat with (S (k + n)).
  rewrite !fact_simpl, !mult_INR.
  assert (H1 := INR_fact_neq_0 k).
  assert (H2 := INR_fact_neq_0 (k + n)).
  assert (H3 : INR (S k) <> 0) by (apply not_0_INR; discriminate).
  assert (H4 : INR (S (k + n)) <> 0) by (apply not_0_INR; discriminate).
  simpl pow. field. repeat split; assumption.
Qed.

Lemma coef_ratio (n k : nat) :
  Rabs (coef n (S k) / coef n k) = / (INR (S k) * INR (S (k + n))).
Proof.
  rewrite coef_succ.
  assert (H0 := coef_no_R0 n k).
  assert (H3 : 0 < INR (S k)) by (apply lt_0_INR; lia).
  assert (H4 : 0 < INR (S (k + n))) by (apply lt_0_INR; lia).
  replace (- coef n k / (INR (S k) * INR (S (k + n))) / coef n k)
    with (- / (INR (S k) * INR (S (k + n)))) by (field; repeat split; lra).
  rewrite Rabs_Ropp. apply Rabs_pos_eq.
  left. apply Rinv_0_lt_compat. apply Rmult_lt_0_compat; assumption.
Qed.

Lemma Alembert_coef (n : nat) :
  Un_cv (fun k : nat => Rabs (coef n (S k) / coef n k)) 0.
Proof.
  intros eps Heps.
  destruct (archimed (/ eps)) as [Hup _].
  assert (Hinv : 0 < / eps) by (apply Rinv_0_lt_compat; exact Heps).
  assert (Hz : (0 < up (/ eps))%Z).
  { apply lt_IZR. lra. }
  exists (Z.to_nat (up (/ eps))). intros k Hk.
  unfold Rdist. rewrite Rminus_0_r, Rabs_Rabsolu, coef_ratio.
  assert (Hk1 : / eps < INR (S k)).
  { apply Rlt_le_trans with (1 := Hup).
    rewrite <- (Z2Nat.id (up (/ eps))) by lia.
    rewrite <- INR_IZR_INZ. apply le_INR. lia. }
  assert (Hk2 : 1 <= INR (S (k + n))).
  { change 1 with (INR 1). apply le_INR. lia. }
  assert (Hpos : 0 < INR (S k)) by lra.
  rewrite <- (Rinv_inv eps).
  apply Rinv_lt_contravar.
  - apply Rmult_lt_0_compat; [ exact Hinv | ].
    apply Rmult_lt_0_compat; lra.
  - nra.
Qed.

Lemma exist_series (n : nat) (t : R) : { l : R | series_in n t l }.
Proof.
  exact (Alembert_C3 (coef n) t (coef_no_R0 n) (Alembert_coef n)).
Defined.

(** The sum of the series at [t]. *)
Definition series (n : nat) (t : R) : R :=
  let (l, _) := exist_series n t in l.

(** [jv n z] is [scipy.special.jv(n, z)] for a natural order [n]. *)
Definition jv (n : nat) (z : R) : R := (z / 2) ^ n * series n (Rsqr (z / 2)).

(** Partial sums of the order-1 series. *)
Definition partial (t : R) (N : nat) : R :=
  sum_f_R0 (fun k : nat => coef 1 k * t ^ k) N.

End Bessel.

(** ** Floating-point values

    [Fin r] is a finite float, idealised as the real [r]; the other
    constructors are the IEEE-754 special values.  The operations follow
    the IEEE-754 rules for the special values and are exact on finite
    ones. *)

Inductive pyfloat : Type :=
| Fin (r : R)
| PInf
| NInf
| NaN.

Definition isnan (x : pyfloat) : bool :=
  match x with NaN => true | _ => false end.

(** [inf_times r pos neg]: the product of an infinity with the finite [r],
    where [pos] is the result for [r > 0] and [neg] the one for [r < 0];
    an infinity times zero is [NaN]. *)
Definition inf_times (r : R) (pos neg : pyfloat) : pyfloat :=
  match total_order_T r 0 with
  | inleft (left _) => neg
  | inleft (right _) => NaN
  | inright _ => pos
  end.

Definition fadd (x y : pyfloat) : pyfloat :=
  match x, y with
  | NaN, _ | _, NaN => NaN
  | Fin a, Fin b => Fin (a + b)
  | PInf, NInf | NInf, PInf => NaN
  | PInf, _ | _, PInf => PInf
  | NInf, _ | _, NInf => NInf
  end.

Definition fmul (x y : pyfloat) : pyfloat :=
  match x, y with
  | NaN, _ | _, NaN => NaN
  | Fin a, Fin b => Fin (a * b)
  | Fin a, PInf | PInf, Fin a => inf_times a PInf NInf
  | Fin a, NInf | NInf, Fin a => inf_times a NInf PInf
  | PInf, PInf | NInf, NInf => PInf
  | PInf, NInf | NInf, PInf => NInf
  end.

(** numpy division: a finite non-zero number over zero is an infinity of
    the sign of the numerator, [0/0] is [NaN]. *)
Definition fdiv (x y : pyfloat) : pyfloat :=
  match x, y with
  | NaN, _ | _, NaN => NaN
  | Fin a, Fin b =>
      if Req_dec_T b 0 then inf_times a PInf NInf else Fin (a / b)
  | Fin _, PInf | Fin _, NInf => Fin 0
  | PInf, Fin b => if Rlt_dec b 0 then NInf else PInf
  | NInf, Fin b => if Rlt_dec b 0 then PInf else NInf
  | PInf, PInf | PInf, NInf | NInf, PInf | NInf, NInf => NaN
  end.

Definition is_integer (y : R) : bool :=
  if Req_dec_T y (IZR (Int_part y)) then true else false.

Definition is_odd_integer (y : R) : bool :=
  is_integer y && Z.odd (Int_part y).

(** [x ** y] for a finite exponent [y], after C's [pow]:
    anything to the power 0 is 1; a negative base has a power only for
    an integer exponent; zero to a negative power is [+inf].  A power of
    a positive base is the exact real power: rounding, overflow and
    underflow are not modelled. *)
Definition fpow (x : pyfloat) (y : R) : pyfloat :=
  if Req_dec_T y 0 then Fin 1
  else
    match x with
    | NaN => NaN
    | PInf => if Rlt_dec y 0 then Fin 0 else PInf
    | NInf =>
        if Rlt_dec y 0 then Fin 0
        else if is_odd_integer y then NInf else PInf
    | Fin r =>
        match total_order_T r 0 with
        | inright _ => Fin (Rpower r y)
        | inleft (right _) => if Rlt_dec y 0 then PInf else Fin 0
        | inleft (left _) =>
            if is_integer y then Fin (powerRZ r (Int_part y)) else NaN
        end
    end.

(** [zip_with f a b]: elementwise [f] over two arrays of the same length. *)
Definition zip_with {A B C : Type} (f : A -> B -> C)
  (a : list A) (b : list B) : list C :=
  map (fun p => f (fst p) (snd p)) (combine a b).

(** [ndarray.sum()]: the sum of no element is [0.0]. *)
Definition np_sum (y : list pyfloat) : pyfloat := fold_left fadd y (Fin 0).

(** [scipy.integrate.trapz(y)] with its defaults [x=None], [dx=1.0]:
    [(d * (y[1:] + y[:-1]) / 2.0).sum()]. *)
Definition trapz (y : list pyfloat) : pyfloat :=
  let d := Fin 1 in
  np_sum (zip_with (fun y1 y0 => fdiv (fmul d (fadd y1 y0)) (Fin 2))
            (tl y) (removelast y)).

(** ** Effects: printed lines and exceptions *)

Inductive exn : Type :=
| NotImplementedError (msg : string)
| ValueError (msg : string).

Inductive outcome (A : Type) : Type :=
| Returns (a : A)
| Raises (e : exn).
Arguments Returns {A} a.
Arguments Raises {A} e.

(** A computation yields the lines it printed and how it ended. *)
Definition M (A : Type) : Type := (list string * outcome A)%type.

Definition ret {A : Type} (a : A) : M A := ([], Returns a).

Definition raise {A : Type} (e : exn) : M A := ([], Raises e).

Definition print (line : string) : M unit := ([line], Returns tt).

Definition bind {A B : Type} (m : M A) (k : A -> M B) : M B :=
  match snd m with
  | Returns a => (fst m ++ fst (k a), snd (k a))
  | Raises e => (fst m, Raises e)
  end.

Notation "x <- m ;; k" := (bind m (fun x => k))
  (at level 61, m at next level, right associativity).
Notation "m ;;; k" := (bind m (fun _ => k))
  (at level 61, right associativity).

(** ** [transects.py]

    On exact reals: [math.pi] is the number pi, the subtraction and the
    products are exact and [scipy.special.jv(1, .)] is the sum of the
    series of [J1].  [Binary64] below has the kernel and the weights on
    doubles. *)

Definition bessel_second (x : R) : R :=
  let bessel_variable := 2.283 * PI * (x - 0.5) in
  if Req_dec_T bessel_variable 0 then 1
  else 2 * (Bessel.jv 1 bessel_variable) / bessel_variable.

Definition path_weighting (path_coordinates : list R) : list R :=
  fold_left (fun weights i => weights ++ [2.163 * bessel_second i])
    path_coordinates [].

Open Scope string_scope.

(** A Python dict with string keys, in insertion order. *)
Fixpoint dict_get {V : Type} (d : list (string * V)) (key : string)
  : option V :=
  match d with
  | [] => None
  | (k, v) :: d' => if String.eqb key k then Some v else dict_get d' key
  end.

(** The exponents as the exact fractions; [RoundedExponents] below has
    them as the doubles the program holds. *)
Definition stability_dict : list (string * R) :=
  [("stable", (-2 / 3)%R); ("unstable", (-4 / 3)%R)].

(** [not stability_name]: [None] and the empty string are falsy. *)
Definition falsy (stability_name : option string) : bool :=
  match stability_name with
  | None => true
  | Some s => String.eqb s ""
  end.

Definition name_of (stability_name : option string) : string :=
  match stability_name with
  | None => "None"
  | Some s => s
  end.

Definition define_stability (stability_name : option string) : M R :=
  if falsy stability_name then
    print "No height dependency selected." ;;;
    ret 1%R
  else
    match dict_get stability_dict (name_of stability_name) with
    | Some b_constant => ret b_constant
    | None =>
        let error_msg :=
          name_of stability_name
          ++ " is not an implemented stability condition." in
        raise (NotImplementedError error_msg)
    end.

Close Scope string_scope.

(** [np.multiply(series, list)]: elementwise on equal lengths; a list of
    one element is broadcast over the series; other shapes do not fit. *)
Definition np_multiply (a b : list pyfloat) : M (list pyfloat) :=
  if Nat.eqb (List.length a) (List.length b) then ret (zip_with fmul a b)
  else
    match b with
    | [w] => ret (map (fun x => fmul x w) a)
    | _ => raise (ValueError "operands could not be broadcast together")
    end.

Definition compute_effective_z (path_heights : list pyfloat)
  (path_positions : list R) (stability : option string) : M pyfloat :=
  b_value <- define_stability stability ;;
  weighted_heights <-
    np_multiply (map (fun h => fpow h b_value) path_heights)
      (map Fin (path_weighting path_positions)) ;;
  (* For path-building intersections *)
  let weighted_heights :=
    map (fun w => if isnan w then Fin 0 else w) weighted_heights in
  let z_eff :=
    fpow (fdiv (trapz weighted_heights)
            (trapz (map Fin (path_weighting path_positions))))
      (1 / b_value) in
  ret z_eff.

(** [np.mean] of a pandas Series hands over to [Series.mean], which
    skips NaN: NaN counts as 0 in the sum, the sum is divided by the
    number of the other elements, and the mean of none is NaN.  The sum
    and the quotient are exact. *)
Definition np_mean (y : list pyfloat) : pyfloat :=
  let count := List.length (filter (fun v => negb (isnan v)) y) in
  let the_sum := np_sum (map (fun v => if isnan v then Fin 0 else v) y) in
  if Nat.eqb count 0 then NaN else fdiv the_sum (Fin (INR count)).

(** A transect row: [path_height] and [norm_position]. *)
Definition get_z_parameters (transect_data : list (pyfloat * R))
  (stability_condition : option string) : M (pyfloat * pyfloat) :=
  effective_path_height <-
    compute_effective_z (map fst transect_data) (map snd transect_data)
      stability_condition ;;
  let mean_path_height := np_mean (map fst transect_data) in
  ret (effective_path_height, mean_path_height).

(** *** The weights on binary64 numbers

    [bessel_second] and [path_weighting] on IEEE-754 binary64 numbers,
    with [scipy.special.jv(1, .)] as a parameter; 2.283 is the double
    [0x1.24395810624ddp+1], 2.163 the double [0x1.14dd2f1a9fbe7p+1] and
    [math.pi] the double [0x1.921fb54442d18p+1]. *)

Module Binary64.
Import PrimFloat.
Local Open Scope float_scope.

Definition pi : float := 0x1.921fb54442d18p+1.

Section Weights.

Variable jv1 : float -> float.

Definition bessel_second (x : float) : float :=
  let bessel_variable := 0x1.24395810624ddp+1 * pi * (x - 0.5) in
  if bessel_variable =? 0 then 1
  else 2 * jv1 bessel_variable / bessel_variable.

Definition path_weighting (path_coordinates : list float) : list float :=
  fold_left
    (fun weights i => weights ++ [0x1.14dd2f1a9fbe7p+1 * bessel_second i])
    path_coordinates [].

End Weights.

(** The centre of the path. *)
Definition centre : float := 0.5.

(** [odd f]: [f] takes opposite values at opposite arguments, as the
    Bessel function of order 1 does. *)
Definition odd (f : float -> float) : Prop := forall v, f (- v) = - f v.

(** [mirrored x1 x2]: both positions are the centre, or their offsets
    from the centre, as the code computes them, are opposite doubles. *)
Definition mirrored (x1 x2 : float) : Prop :=
  (x1 = centre /\ x2 = centre) \/ x1 - 0.5 = - (x2 - 0.5).





End Binary64.

(** *** The exponents on binary64 numbers

    [define_stability] and [compute_effective_z] with the exponent
    [b_value] and its reciprocal [1 / b_value] as the binary64 numbers
    the program holds: [-2 / 3] and [-4 / 3] are quotients of integers
    rounded to the nearest double, and [1 / b_value] is rounded again.
    The powers, products, sums and quotients stay exact. *)

Module RoundedExponents.
Import PrimFloat.

(** The real number that a finite binary64 number stands for. *)
Definition SF2R (x : SpecFloat.spec_float) : R :=
  match x with
  | SpecFloat.S754_finite s m e =>
      if (0 <=? e)%Z
      then IZR ((if s then Z.neg m else Z.pos m) * 2 ^ e)
      else IZR (if s then Z.neg m else Z.pos m) / IZR (2 ^ (- e))
  | _ => 0
  end.

Definition value (x : float) : R := SF2R (FloatOps.Prim2SF x).

Open Scope string_scope.

Definition stability_dict : list (string * float) :=
  [("stable", (-2 / 3)%float); ("unstable", (-4 / 3)%float)].

Definition define_stability (stability_name : option string)
  : M float :=
  if falsy stability_name then
    print "No height dependency selected." ;;;
    ret 1%float
  else
    match dict_get stability_dict (name_of stability_name) with
    | Some b_constant => ret b_constant
    | None =>
        let error_msg :=
          name_of stability_name
          ++ " is not an implemented stability condition." in
        raise (NotImplementedError error_msg)
    end.

Close Scope string_scope.

Definition compute_effective_z (path_heights : list pyfloat)
  (path_positions : list R) (stability : option string) : M pyfloat :=
  b_value <- define_stability stability ;;
  weighted_heights <-
    np_multiply (map (fun h => fpow h (value b_value)) path_heights)
      (map Fin (path_weighting path_positions)) ;;
  (* For path-building intersections *)
  let weighted_heights :=
    map (fun w => if isnan w then Fin 0 else w) weighted_heights in
  let z_eff :=
    fpow (fdiv (trapz weighted_heights)
            (trapz (map Fin (path_weighting path_positions))))
      (value (1 / b_value)%float) in
  ret z_eff.

End RoundedExponents.

(** The trapezoidal sum of finite samples, on the reals. *)
Fixpoint trapz_R (y : list R) : R :=
  match y with
  | y0 :: ((y1 :: _) as y') => (y1 + y0) / 2 + trapz_R y'
  | _ => 0
  end.

(** ** The effective height in the words of the specification *)

Module Spec.

(** [pathWeight(x) = 2.163 * besselWeight(x)]. *)
Definition pathWeight (x : R) : R := 2.163 * bessel_second x.

(** [weighted[i] = heights[i]^b * pathWeight(positions[i])], with a NaN
    entry replaced by 0. *)
Definition weighted (b : R) (heights : list pyfloat) (positions : list R)
  : list pyfloat :=
  zip_with
    (fun h x =>
       let w := fmul (fpow h b) (Fin (pathWeight x)) in
       if isnan w then Fin 0 else w)
    heights positions.

(** Trapezoidal quadrature of the samples [y] over the abscissae [x]:
    the sum of [(x[i+1] - x[i]) * (y[i] + y[i+1]) / 2]. *)
Fixpoint trapezoid (x : list R) (y : list pyfloat) {struct y} : pyfloat :=
  match x, y with
  | x0 :: x', y0 :: y' =>
      match x', y' with
      | x1 :: _, y1 :: _ =>
          fadd (fmul (Fin (x1 - x0)) (fdiv (fadd y0 y1) (Fin 2)))
            (trapezoid x' y')
      | _, _ => Fin 0
      end
  | _, _ => Fin 0
  end.

(** [(integral of weighted / integral of pathWeight)^(1/b)], both
    integrals over the same abscissae. *)
Definition effectiveHeight (abscissae : list R) (b : R)
  (heights : list pyfloat) (positions : list R) : pyfloat :=
  fpow
    (fdiv (trapezoid abscissae (weighted b heights positions))
       (trapezoid abscissae (map (fun x => Fin (pathWeight x)) positions)))
    (1 / b).

(** The sample indices [0, 1, ..., n-1] as abscissae. *)
Definition sample_index (n : nat) : list R := map INR (seq 0 n).

(** Positions that start at [x0] and advance by the step [h]. *)
Definition uniform (x0 h : R) (n : nat) : list R :=
  map (fun i => x0 + INR i * h) (seq 0 n).

(** The claim that the integrals are taken over the position domain. *)
Definition over_position_domain (heights : list pyfloat)
  (positions : list R) (stability : option string) : Prop :=
  forall (out : list string) (b : R),
    define_stability stability = (out, Returns b) ->
    compute_effective_z heights positions stability
    = (out, Returns (effectiveHeight positions b heights positions)).

End Spec.

(** The quadrature over abscissae, on the reals. *)
Fixpoint trapezoid_R (x y : list R) {struct y} : R :=
  match x, y with
  | x0 :: x', y0 :: y' =>
      match x', y' with
      | x1 :: _, y1 :: _ => (x1 - x0) * ((y0 + y1) / 2) + trapezoid_R x' y'
      | _, _ => 0
      end
  | _, _ => 0
  end.

(** ** Profile construction

    The module [constructions.py] and the constants of [constants.py]
    are not among the sources; its operations are modelled from the
    specification, on finite real cells. *)

Module Constructions.

(** Modelled from the spec: the bundle PhysicalConstants of section 3,
    with the fields dry-air gas constant, water-vapour gas constant,
    gravitational acceleration (signed), specific heat at constant
    pressure and reference pressure. *)
Record AtmosConstants : Type := {
  r_dry : R;
  r_vapour : R;
  g : R;
  cp : R;
  ref_pressure : R
}.

(** Modelled from the spec: a time-indexed series, the surface
    measurements of one quantity. *)
Record Series : Type := {
  s_index : list Z;
  s_values : list R
}.

(** Modelled from the spec: the LevelTable of section 3, a time-indexed
    table whose columns are height levels; a column is its height label
    with its time-ordered cells. *)
Record LevelTable : Type := {
  index : list Z;
  columns : list (R * list R)
}.

(** The column of the first level labelled [z], as [table[z]] selects
    it. *)
Fixpoint column_at (z : R) (cols : list (R * list R)) : option (list R) :=
  match cols with
  | [] => None
  | (label, cells) :: cols' =>
      if Req_dec_T label z then Some cells else column_at z cols'
  end.

(** Modelled from the spec: [alpha = r_dry / |g|]. *)
Definition alpha (c : AtmosConstants) : R := r_dry c / Rabs (g c).

(** Modelled from the spec: [reducedPressure(stationPressure,
    virtualTemperature, elevation) = stationPressure * exp(elevation /
    (alpha * virtualTemperature))], on one cell. *)
Definition reduced_pressure (c : AtmosConstants)
  (station_pressure virtual_temperature elevation : R) : R :=
  station_pressure * exp (elevation / (alpha c * virtual_temperature)).

(** Modelled from the spec: the operation applied per level and per
    timestamp to two tables that share their levels and index. *)
Definition get_reduced_pressure (c : AtmosConstants)
  (station_pressure virtual_temperature : LevelTable) (elevation : R)
  : LevelTable :=
  {| index := index station_pressure;
     columns :=
       zip_with
         (fun p t =>
            (fst p,
             zip_with (fun pc tc => reduced_pressure c pc tc elevation)
               (snd p) (snd t)))
         (columns station_pressure) (columns virtual_temperature) |}.

(** Modelled from the spec: [airPressure(pressure, airTemperature,
    zTarget, zRef) = pressure * exp(-(zTarget - zRef) * |g| / (r_dry *
    airTemperature))]. *)
Definition get_air_pressure (c : AtmosConstants)
  (pressure air_temperature z_target z_ref : R) : R :=
  pressure
  * exp (- (z_target - z_ref) * Rabs (g c) / (r_dry c * air_temperature)).

(** Modelled from the spec: [extrapolateAirPressure] applies
    [airPressure] for every height level of the temperature table, with
    0 as the reference height and the surface pressure as the reference
    pressure. *)
Definition extrapolate_air_pressure (c : AtmosConstants)
  (surface_pressure : Series) (temperature : LevelTable) : LevelTable :=
  {| index := index temperature;
     columns :=
       map
         (fun col =>
            (fst col,
             zip_with (fun p t => get_air_pressure c p t (fst col) 0)
               (s_values surface_pressure) (snd col)))
         (columns temperature) |}.

(** Modelled from the spec: the backward difference of a column against
    the previous one, over the spacing of their height labels. *)
Definition backward_column (prev cur : R * list R) : R * list R :=
  (fst cur,
   zip_with (fun a b => (b - a) / (fst cur - fst prev)) (snd prev) (snd cur)).

(** Modelled from the spec: the first (lowest) column has the gradient
    zero on every row. *)
Definition zero_column (col : R * list R) : R * list R :=
  (fst col, map (fun _ => 0) (snd col)).

(** Modelled from the spec: every column after the first against the
    column before it. *)
Fixpoint backward_from (prev : R * list R) (cols : list (R * list R))
  : list (R * list R) :=
  match cols with
  | [] => []
  | cur :: rest => backward_column prev cur :: backward_from cur rest
  end.

(** Modelled from the spec: the scheme "backward" of [getGradient]. *)
Definition backward_differencing (data : LevelTable) : LevelTable :=
  {| index := index data;
     columns :=
       match columns data with
       | [] => []
       | first :: rest => zero_column first :: backward_from first rest
       end |}.

(** Modelled from the spec: the three-point centred difference on
    unequal steps [hm = z - zp] and [hp = zn - z]. *)
Definition centred (zp z zn fp f fn : R) : R :=
  let hm := z - zp in
  let hp := zn - z in
  (hm * hm * fn - hp * hp * fp + (hp * hp - hm * hm) * f)
  / (hm * hp * (hm + hp)).

(** Modelled from the spec: the centred difference of an interior
    column, row by row. *)
Definition centred_column (prev cur next : R * list R) : R * list R :=
  (fst cur,
   zip_with (fun fpf fn => centred (fst prev) (fst cur) (fst next)
                             (fst fpf) (snd fpf) fn)
     (combine (snd prev) (snd cur)) (snd next)).

(** Modelled from the spec: interior columns are centred; the last
    column, with no forward neighbour, is a backward difference. *)
Fixpoint uneven_from (prev cur : R * list R) (rest : list (R * list R))
  : list (R * list R) :=
  match rest with
  | [] => [backward_column prev cur]
  | next :: rest' => centred_column prev cur next :: uneven_from cur next rest'
  end.

(** Modelled from the spec: [nonUniformDifferencing], with the first
    column forced to zero. *)
Definition non_uniform_differencing (dataframe : LevelTable) : LevelTable :=
  {| index := index dataframe;
     columns :=
       match columns dataframe with
       | [] => []
       | [first] => [zero_column first]
       | first :: second :: rest =>
           zero_column first :: uneven_from first second rest
       end |}.

Open Scope string_scope.

(** Modelled from the spec: [getGradient] dispatches on the method name;
    the message of the error is the one the test suite expects. *)
Definition get_gradient (data : LevelTable) (method : string)
  : outcome LevelTable :=
  if String.eqb method "uneven" then
    Returns (non_uniform_differencing data)
  else if String.eqb method "backward" then
    Returns (backward_differencing data)
  else
    let error_msg :=
      "'" ++ method ++ "' is not an implemented differencing scheme."
      ++ " " ++ "Use 'uneven' or 'backward'." in
    Raises (NotImplementedError error_msg).

(** [contains s sub]: [sub] occurs in [s]. *)
Definition contains (s sub : string) : Prop :=
  exists pre post : string, s = pre ++ sub ++ post.

Close Scope string_scope.

End Constructions.

(** ** Transects as rows of heights and positions *)

(** The weighted sum of the powers of the heights, and the sum of the
    weights, over the rows (height, position) of a transect. *)
Definition power_sum (b : R) (t : list (R * R)) : R :=
  trapz_R (map (fun r => Rpower (fst r) b * Spec.pathWeight (snd r)) t).

Definition weight_sum (t : list (R * R)) : R :=
  trapz_R (map (fun r => Spec.pathWeight (snd r)) t).

(** A transect with at least two rows, positive heights and positions
    in [0, 1]. *)
Definition regular (t : list (R * R)) : Prop :=
  (2 <= List.length t)%nat /\
  Forall (fun r => 0 < fst r /\ 0 <= snd r <= 1) t.

(** The heights of a transect scaled by [c], as after a change of unit. *)
Definition scale_heights (c : R) (t : list (R * R)) : list (R * R) :=
  map (fun r => (c * fst r, snd r)) t.

(** A height of a transect file: a number, or a missing value read as
    NaN. *)
Definition height_of (o : option R) : pyfloat :=
  match o with
  | Some h => Fin h
  | None => NaN
  end.

(** The weighted height of a row, 0 where the height is missing. *)
Definition weighted_term (b : R) (r : option R * R) : R :=
  match fst r with
  | Some h => Rpower h b * Spec.pathWeight (snd r)
  | None => 0
  end.

(** A float that is finite or [+inf]. *)
Definition finite_or_pinf (x : pyfloat) : Prop :=
  match x with
  | Fin _ | PInf => True
  | NInf | NaN => False
  end.

(** The rows of a transect file whose heights may be missing. *)
Definition rows_of (t : list (option R * R)) : list (pyfloat * R) :=
  map (fun r => (height_of (fst r), snd r)) t.

(** The heights that are present, in the order of the rows. *)
Definition present_heights (t : list (option R * R)) : list R :=
  flat_map (fun r => match fst r with Some h => [h] | None => [] end) t.

Definition sum_R (l : list R) : R := fold_right Rplus 0 l.

Definition mean_R (l : list R) : R := sum_R l / INR (List.length l).

(** Two transects over the same positions, the second nowhere lower. *)
Definition raised (t t' : list (R * R)) : Prop :=
  Forall2 (fun r r' => snd r = snd r' /\ fst r <= fst r') t t'.

(** * Properties *)

(** ** The Bessel series *)

Module BesselFacts.
Import Bessel.

Lemma series_spec (n : nat) (t : R) : series_in n t (series n t).
Proof. unfold series. destruct (exist_series n t) as [l Hl]. exact Hl. Qed.

Lemma series_unique (n : nat) (t l : R) : series_in n t l -> series n t = l.
Proof.
  intros Hl. exact (uniqueness_sum _ _ _ (series_spec n t) Hl).
Qed.

(** At [t = 0] only the constant term is left. *)
Lemma series_0 (n : nat) : series n 0 = / INR (fact n).
Proof.
  apply series_unique. intros eps Heps. exists 0%nat. intros k _.
  assert (Hsum : sum_f_R0 (fun k : nat => coef n k * 0 ^ k) k = coef n 0).
  { induction k as [|k IH].
    - simpl. ring.
    - simpl sum_f_R0. rewrite IH. simpl pow. ring. }
  rewrite Hsum. unfold coef. simpl.
  unfold Rdist.
  replace (1 / (1 * INR (fact n)) - / INR (fact n)) with 0.
  - rewrite Rabs_R0. exact Heps.
  - assert (H := INR_fact_neq_0 n). field. exact H.
Qed.

(** [jv n z] is the sum of the defining series of [J_n] at [z]. *)
Lemma jv_series (n : nat) (z : R) :
  infinite_sum (fun k : nat => coef n k * (z / 2) ^ (2 * k + n)) (jv n z).
Proof.
  unfold jv. set (c := (z / 2) ^ n).
  assert (Hs := series_spec n (Rsqr (z / 2))).
  set (l := series n (Rsqr (z / 2))) in *.
  assert (Hterm : forall N,
    sum_f_R0 (fun k : nat => coef n k * (z / 2) ^ (2 * k + n)) N =
    c * sum_f_R0 (fun k : nat => coef n k * Rsqr (z / 2) ^ k) N).
  { intros N. rewrite scal_sum. apply sum_eq. intros k _.
    unfold c. rewrite pow_add, pow_mult, <- Rsqr_pow2. ring. }
  intros eps Heps.
  destruct (Req_dec_T c 0) as [Hc | Hc].
  - exists 0%nat. intros N _. rewrite Hterm, Hc.
    unfold Rdist. replace (0 * _ - 0 * l) with 0 by ring.
    rewrite Rabs_R0. exact Heps.
  - assert (Hac : 0 < Rabs c) by (apply Rabs_pos_lt; exact Hc).
    destruct (Hs (eps / Rabs c)) as [N0 HN0].
    { apply Rdiv_lt_0_compat; assumption. }
    exists N0. intros N HN. rewrite Hterm. unfold Rdist.
    replace (c * _ - c * l)
      with (c * (sum_f_R0 (fun k : nat => coef n k * Rsqr (z / 2) ^ k) N - l))
      by ring.
    rewrite Rabs_mult.
    specialize (HN0 N HN). unfold Rdist in HN0.
    apply Rmult_lt_compat_l with (r := Rabs c) in HN0; [ | exact Hac ].
    replace (Rabs c * (eps / Rabs c)) with eps in HN0
      by (field; apply Rgt_not_eq; exact Hac).
    exact HN0.
Qed.


Lemma coef_even_pos (n m : nat) : 0 < coef n (2 * m).
Proof.
  unfold coef. rewrite pow_1_even.
  apply Rdiv_lt_0_compat; [ lra | ].
  apply Rmult_lt_0_compat; apply INR_fact_lt_0.
Qed.

(** Two consecutive terms, the first of even index, have a sum that is
    not negative as long as [t] is small against the index. *)
Lemma pair_nonneg (t : R) (m : nat) :
  0 <= t <= 12 ->
  0 <= coef 1 (2 * S m) * t ^ (2 * S m)
       + coef 1 (S (2 * S m)) * t ^ (S (2 * S m)).
Proof.
  intros [Ht0 Ht12].
  rewrite coef_succ.
  set (k := (2 * S m)%nat).
  assert (Hc : 0 < coef 1 k) by apply coef_even_pos.
  assert (Hp : 0 <= t ^ k) by (apply pow_le; exact Ht0).
  assert (Hk1 : 3 <= INR (S k)).
  { replace 3 with (INR 3) by (simpl; lra). apply le_INR. unfold k. lia. }
  assert (Hk2 : 4 <= INR (S (k + 1))).
  { replace 4 with (INR 4) by (simpl; lra). apply le_INR. unfold k. lia. }
  set (a := INR (S k)) in *. set (b := INR (S (k + 1))) in *.
  assert (Hab : 12 <= a * b) by nra.
  replace (coef 1 k * t ^ k + - coef 1 k / (a * b) * t ^ S k)
    with (coef 1 k * t ^ k * (1 - t / (a * b))).
  2:{ simpl pow. field. nra. }
  apply Rmult_le_pos; [ apply Rmult_le_pos; lra | ].
  assert (t / (a * b) <= 1); [ | lra ].
  apply Rmult_le_reg_r with (r := a * b); [ lra | ].
  replace (t / (a * b) * (a * b)) with t by (field; nra). lra.
Qed.

Lemma partial_1 (t : R) : partial t 1 = 1 - t / 2.
Proof. unfold partial, coef. simpl. field. Qed.

Lemma partial_odd_lower (t : R) (m : nat) :
  0 <= t <= 12 -> 1 - t / 2 <= partial t (S (2 * m)).
Proof.
  intros Ht. induction m as [|m IH].
  - rewrite partial_1. lra.
  - replace (S (2 * S m)) with (S (S (S (2 * m)))) by lia.
    unfold partial in *. rewrite 2!tech5.
    assert (Hp := pair_nonneg t m Ht).
    replace (2 * S m)%nat with (S (S (2 * m))) in Hp by lia.
    lra.
Qed.

(** The sum of the order-1 series is at least its first partial sum of
    odd index. *)
Lemma series_lower (t : R) : 0 <= t <= 12 -> 1 - t / 2 <= series 1 t.
Proof.
  intros Ht.
  destruct (Rle_lt_dec (1 - t / 2) (series 1 t)) as [Hle | Hlt];
    [ exact Hle | exfalso ].
  destruct (series_spec 1 t (1 - t / 2 - series 1 t)) as [N HN]; [ lra | ].
  specialize (HN (S (2 * N)) ltac:(unfold ge; lia)).
  assert (Hlow := partial_odd_lower t N Ht). unfold partial in Hlow.
  unfold Rdist in HN. rewrite Rabs_pos_eq in HN; lra.
Qed.

(** Two consecutive terms, the first of odd index, have a sum that is
    not positive. *)
Lemma pair_nonpos (t : R) (m : nat) :
  0 <= t <= 6 ->
  coef 1 (S (2 * m)) * t ^ (S (2 * m))
  + coef 1 (S (S (2 * m))) * t ^ (S (S (2 * m))) <= 0.
Proof.
  intros [Ht0 Ht6].
  rewrite (coef_succ 1 (S (2 * m))), (coef_succ 1 (2 * m)).
  set (k := (2 * m)%nat).
  assert (Hc : 0 < coef 1 k) by apply coef_even_pos.
  assert (Hp : 0 <= t ^ k) by (apply pow_le; exact Ht0).
  assert (Hk1 : 1 <= INR (S k)).
  { replace 1 with (INR 1) by (simpl; lra). apply le_INR. lia. }
  assert (Hk2 : 2 <= INR (S (k + 1))).
  { replace 2 with (INR 2) by (simpl; lra). apply le_INR. lia. }
  assert (Hk3 : 2 <= INR (S (S k))).
  { replace 2 with (INR 2) by (simpl; lra). apply le_INR. lia. }
  assert (Hk4 : 3 <= INR (S (S k + 1))).
  { replace 3 with (INR 3) by (simpl; lra). apply le_INR. lia. }
  set (a := INR (S k)) in *. set (b := INR (S (k + 1))) in *.
  set (c := INR (S (S k))) in *. set (d := INR (S (S k + 1))) in *.
  assert (Hcd : 6 <= c * d) by nra.
  assert (Hab : 0 < a * b) by nra.
  replace (- coef 1 k / (a * b) * t ^ S k
           + - (- coef 1 k / (a * b)) / (c * d) * t ^ S (S k))
    with (- (coef 1 k * t ^ k * (t / (a * b)) * (1 - t / (c * d)))).
  2:{ simpl pow. field. nra. }
  assert (H1 : 0 <= t / (a * b)).
  { apply Rmult_le_pos; [ lra | left; apply Rinv_0_lt_compat; lra ]. }
  assert (H2 : t / (c * d) <= 1).
  { apply Rmult_le_reg_r with (r := c * d); [ lra | ].
    replace (t / (c * d) * (c * d)) with t by (field; nra). lra. }
  assert (H3 : 0 <= coef 1 k * t ^ k) by (apply Rmult_le_pos; lra).
  assert (H4 : 0 <= coef 1 k * t ^ k * (t / (a * b)))
    by (apply Rmult_le_pos; lra).
  assert (H5 : 0 <= coef 1 k * t ^ k * (t / (a * b)) * (1 - t / (c * d)))
    by (apply Rmult_le_pos; lra).
  lra.
Qed.

Lemma partial_even_upper (t : R) (m : nat) :
  0 <= t <= 6 -> partial t (2 * m) <= 1.
Proof.
  intros Ht. induction m as [|m IH].
  - unfold partial, coef. simpl. lra.
  - replace (2 * S m)%nat with (S (S (2 * m))) by lia.
    unfold partial in *. rewrite 2!tech5.
    assert (Hp := pair_nonpos t m Ht). lra.
Qed.

(** The sum of the order-1 series is at most its first term. *)
Lemma series_upper (t : R) : 0 <= t <= 6 -> series 1 t <= 1.
Proof.
  intros Ht.
  destruct (Rle_lt_dec (series 1 t) 1) as [Hle | Hlt];
    [ exact Hle | exfalso ].
  destruct (series_spec 1 t (series 1 t - 1)) as [N HN]; [ lra | ].
  specialize (HN (2 * N)%nat ltac:(unfold ge; lia)).
  assert (Hup := partial_even_upper t N Ht). unfold partial in Hup.
  unfold Rdist in HN. rewrite Rabs_left in HN; lra.
Qed.

Lemma partial_3 (t : R) :
  partial t 3 = 1 - t / 2 + t * t / 12 - t * t * t / 144.
Proof. unfold partial, coef. simpl. field. Qed.

Lemma partial_odd_lower3 (t : R) (m : nat) :
  0 <= t <= 12 ->
  1 - t / 2 + t * t / 12 - t * t * t / 144 <= partial t (S (2 * S m)).
Proof.
  intros Ht. induction m as [|m IH].
  - rewrite partial_3. lra.
  - replace (S (2 * S (S m))) with (S (S (S (2 * S m)))) by lia.
    unfold partial in *. rewrite 2!tech5.
    assert (Hp := pair_nonneg t (S m) Ht).
    replace (2 * S (S m))%nat with (S (S (2 * S m))) in Hp by lia.
    lra.
Qed.

(** The sum of the order-1 series is at least its partial sum of index 3. *)
Lemma series_lower3 (t : R) :
  0 <= t <= 12 ->
  1 - t / 2 + t * t / 12 - t * t * t / 144 <= series 1 t.
Proof.
  intros Ht.
  set (L := 1 - t / 2 + t * t / 12 - t * t * t / 144).
  destruct (Rle_lt_dec L (series 1 t)) as [Hle | Hlt];
    [ exact Hle | exfalso ].
  destruct (series_spec 1 t (L - series 1 t)) as [N HN]; [ lra | ].
  specialize (HN (S (2 * S N)) ltac:(unfold ge; lia)).
  assert (Hlow := partial_odd_lower3 t N Ht). unfold partial in Hlow.
  fold L in Hlow.
  unfold Rdist in HN. rewrite Rabs_pos_eq in HN; lra.
Qed.

(** Machin's formula with three terms bounds [PI] from above. *)
Lemma PI_upper : PI <= 3.1421.
Proof.
  assert (H := proj2 (PI_2_3_7_ineq 1)).
  unfold PI_2_3_7_tg, tg_alt, Ratan_seq in H. simpl in H. lra.
Qed.

End BesselFacts.

(** ** The path-weighting kernel *)

Lemma bessel_variable_zero_iff (x : R) :
  2.283 * PI * (x - 0.5) = 0 <-> x = 0.5.
Proof.
  assert (Hpi := PI_RGT_0). split; intros H; [ nra | subst x; ring ].
Qed.

(** The kernel is the order-1 series in the square of half its variable,
    on both branches of the test. *)
Lemma bessel_second_series (x : R) :
  bessel_second x = Bessel.series 1 (Rsqr (2.283 * PI * (x - 0.5) / 2)).
Proof.
  unfold bessel_second. cbv zeta.
  destruct (Req_dec_T (2.283 * PI * (x - 0.5)) 0) as [Hv | Hv].
  - rewrite Hv. replace (Rsqr (0 / 2)) with 0 by (unfold Rsqr; field).
    rewrite BesselFacts.series_0. simpl. field.
  - unfold Bessel.jv. simpl pow. field.
    repeat split;
      first [ lra | apply PI_neq0 | intros E; apply Hv; rewrite E; ring ].
Qed.

Lemma bessel_second_mirror (d : R) :
  bessel_second (0.5 + d) = bessel_second (0.5 - d).
Proof.
  rewrite !bessel_second_series. f_equal. unfold Rsqr. field.
Qed.

Lemma bessel_second_lower (x : R) :
  0 <= x <= 1 ->
  1 - Rsqr (2.283 * PI * (x - 0.5) / 2) / 2 <= bessel_second x.
Proof.
  intros Hx. rewrite bessel_second_series.
  apply BesselFacts.series_lower.
  assert (Hpi := PI_RGT_0). assert (Hpi4 := PI_4).
  split; [ apply Rle_0_sqr | ].
  unfold Rsqr.
  set (y := PI * (x - 0.5)).
  assert (Hy : -2 <= y <= 2) by (unfold y; split; nra).
  replace (2.283 * PI * (x - 0.5) / 2) with (2.283 / 2 * y)
    by (unfold y; field).
  nra.
Qed.

(** The loop of [path_weighting] builds the list of the weights in the
    order of the coordinates. *)
Lemma path_weighting_map (path_coordinates : list R) :
  path_weighting path_coordinates =
  map (fun i => 2.163 * bessel_second i) path_coordinates.
Proof.
  unfold path_weighting.
  assert (H : forall (l acc : list R),
    fold_left (fun weights i => weights ++ [2.163 * bessel_second i]) l acc
    = acc ++ map (fun i => 2.163 * bessel_second i) l).
  { induction l as [|i l IH]; intros acc; simpl.
    - now rewrite app_nil_r.
    - rewrite IH, <- app_assoc. reflexivity. }
  apply H.
Qed.

Lemma path_weighting_length (path_coordinates : list R) :
  List.length (path_weighting path_coordinates) = List.length path_coordinates.
Proof. rewrite path_weighting_map. apply length_map. Qed.

(** The weight at the centre of the path is the constant 2.163. *)
Example path_weighting_centre : path_weighting [0.5] = [2.163].
Proof.
  rewrite path_weighting_map. cbn [map]. f_equal.
  rewrite bessel_second_series.
  replace (Rsqr (2.283 * PI * (0.5 - 0.5) / 2)) with 0
    by (unfold Rsqr; field).
  rewrite BesselFacts.series_0. simpl. field.
Qed.

(** *** The weights on binary64 numbers *)

Module Binary64Facts.
Import PrimFloat SpecFloat FloatOps FloatAxioms.
Local Open Scope float_scope.

(** The variable is zero at the centre of the path and the branch that
    returns 1 is taken. *)
Lemma bessel_second_centre_binary64 (jv1 : float -> float) :
  Binary64.bessel_second jv1 Binary64.centre = 1.
Proof. reflexivity. Qed.













(** Positions written 0.8 and 0.2 are not mirror images as doubles. *)
Example decimal_positions_not_mirrored : ~ Binary64.mirrored 0.8 0.2.
Proof.
  unfold Binary64.mirrored, Binary64.centre. intros [[H _] | H].
  - apply (f_equal (fun x => x =? 0.5)) in H. vm_compute in H. discriminate.
  - apply (f_equal (fun x => x =? 0x1.3333333333334p-2)) in H.
    vm_compute in H. discriminate.
Qed.







End Binary64Facts.

(** C3 (Path-weighting kernel).  With [v = 2.283 * pi * (x - 0.5)],
    [bessel_second x] is 1 when [v] is zero and [2 * J1(v) / v]
    otherwise, where [J1 = jv 1] is the sum of the series of the Bessel
    function of the first kind of order 1; [v] is zero exactly at
    [x = 0.5], so [bessel_second 0.5 = 1], in exact arithmetic and on
    binary64 numbers. *)
Theorem bessel_second_kernel (x : R) :
  let v := 2.283 * PI * (x - 0.5) in
  (v = 0 -> bessel_second x = 1) /\
  (v <> 0 -> bessel_second x = 2 * Bessel.jv 1 v / v) /\
  infinite_sum
    (fun k : nat =>
       (-1) ^ k / (INR (fact k) * INR (fact (k + 1))) * (v / 2) ^ (2 * k + 1))
    (Bessel.jv 1 v) /\
  (v = 0 <-> x = 0.5) /\
  bessel_second 0.5 = 1 /\
  (forall jv1 : PrimFloat.float -> PrimFloat.float,
     Binary64.bessel_second jv1 Binary64.centre = PrimFloat.one).
Proof.
  intros v. split; [ | split; [ | split; [ | split; [ | split ] ] ] ].
  - intros Hv. unfold bessel_second. cbv zeta. fold v.
    destruct (Req_dec_T v 0); [ reflexivity | contradiction ].
  - intros Hv. unfold bessel_second. cbv zeta. fold v.
    destruct (Req_dec_T v 0); [ contradiction | reflexivity ].
  - exact (BesselFacts.jv_series 1 v).
  - apply bessel_variable_zero_iff.
  - unfold bessel_second. cbv zeta.
    destruct (Req_dec_T (2.283 * PI * (0.5 - 0.5)) 0) as [_ | Hn];
      [ reflexivity | exfalso; apply Hn; ring ].
  - exact Binary64Facts.bessel_second_centre_binary64.
Qed.

Lemma bessel_second_kernel_witness :
  bessel_second 0.5 = 1 /\
  bessel_second 1 =
    2 * Bessel.jv 1 (2.283 * PI * (1 - 0.5)) / (2.283 * PI * (1 - 0.5)).
Proof.
  split.
  - apply (proj1 (bessel_second_kernel 0.5)). ring.
  - apply (proj1 (proj2 (bessel_second_kernel 1))).
    assert (Hpi := PI_RGT_0). lra.
Defined.




(** ** The stability exponent *)

Open Scope string_scope.

(** C5 (Stability exponent).  [define_stability] returns 1 and prints a
    note for an absent or empty name, returns -2/3 for "stable" and -4/3
    for "unstable", and for every other name raises
    [NotImplementedError] with a message that starts with the name, an
    error that [compute_effective_z] passes on; there is no other
    outcome. *)
Theorem define_stability_cases :
  define_stability None
    = (["No height dependency selected."], Returns 1%R) /\
  define_stability (Some "")
    = (["No height dependency selected."], Returns 1%R) /\
  define_stability (Some "stable") = ([], Returns (-2 / 3)%R) /\
  define_stability (Some "unstable") = ([], Returns (-4 / 3)%R) /\
  (forall s : string,
     s <> "" -> s <> "stable" -> s <> "unstable" ->
     define_stability (Some s)
     = ([], Raises (NotImplementedError
                      (s ++ " is not an implemented stability condition.")))
     /\
     forall (path_heights : list pyfloat) (path_positions : list R),
       compute_effective_z path_heights path_positions (Some s)
       = ([], Raises (NotImplementedError
                        (s ++ " is not an implemented stability condition."))))
  /\
  (forall stability_name : option string,
     snd (define_stability stability_name) = Returns 1%R \/
     snd (define_stability stability_name) = Returns (-2 / 3)%R \/
     snd (define_stability stability_name) = Returns (-4 / 3)%R \/
     exists s : string,
       stability_name = Some s /\
       snd (define_stability stability_name)
       = Raises (NotImplementedError
                   (s ++ " is not an implemented stability condition."))).
Proof.
  assert (Hother : forall s : string,
    s <> "" -> s <> "stable" -> s <> "unstable" ->
    define_stability (Some s)
    = ([], Raises (NotImplementedError
                     (s ++ " is not an implemented stability condition.")))).
  { intros s H0 H1 H2. unfold define_stability. simpl falsy.
    apply String.eqb_neq in H0, H1, H2.
    rewrite H0. simpl. rewrite H1, H2. reflexivity. }
  do 4 (split; [ reflexivity | ]). split.
  - intros s H0 H1 H2. split; [ now apply Hother | ].
    intros path_heights path_positions.
    unfold compute_effective_z, bind. rewrite (Hother s H0 H1 H2).
    reflexivity.
  - intros [s|]; [ | left; reflexivity ].
    destruct (String.eqb_spec s "") as [-> | H0]; [ left; reflexivity | ].
    destruct (String.eqb_spec s "stable") as [-> | H1];
      [ right; left; reflexivity | ].
    destruct (String.eqb_spec s "unstable") as [-> | H2];
      [ right; right; left; reflexivity | ].
    right; right; right. exists s. split; [ reflexivity | ].
    now rewrite (Hother s H0 H1 H2).
Qed.

Lemma define_stability_cases_witness :
  define_stability (Some "neutral")
  = ([], Raises (NotImplementedError
                   "neutral is not an implemented stability condition."))
  /\
  compute_effective_z [Fin 10%R; Fin 10%R] [0%R; 1%R] (Some "neutral")
  = ([], Raises (NotImplementedError
                   "neutral is not an implemented stability condition.")).
Proof.
  destruct (proj1 (proj2 (proj2 (proj2 (proj2 define_stability_cases))))
              "neutral" ltac:(discriminate) ltac:(discriminate)
              ltac:(discriminate))
    as [Hd Hz].
  split; [ exact Hd | exact (Hz [Fin 10%R; Fin 10%R] [0%R; 1%R]) ].
Defined.

Close Scope string_scope.

(** ** Arithmetic of the float model *)

Lemma fadd_comm (x y : pyfloat) : fadd x y = fadd y x.
Proof. destruct x, y; simpl; try reflexivity. f_equal. ring. Qed.

Lemma fadd_assoc (x y z : pyfloat) : fadd x (fadd y z) = fadd (fadd x y) z.
Proof. destruct x, y, z; simpl; try reflexivity. f_equal. ring. Qed.

Lemma fadd_0_l (x : pyfloat) : fadd (Fin 0) x = x.
Proof. destruct x; simpl; try reflexivity. f_equal. ring. Qed.

Lemma fadd_0_r (x : pyfloat) : fadd x (Fin 0) = x.
Proof. rewrite fadd_comm. apply fadd_0_l. Qed.

Lemma inf_times_pos (r : R) (pos neg : pyfloat) :
  0 < r -> inf_times r pos neg = pos.
Proof.
  intros Hr. unfold inf_times.
  destruct (total_order_T r 0) as [[H | H] | H]; try reflexivity; lra.
Qed.

Lemma fmul_1_l (x : pyfloat) : fmul (Fin 1) x = x.
Proof.
  destruct x; simpl; try (rewrite inf_times_pos by lra); try reflexivity.
  f_equal. ring.
Qed.

Lemma fmul_pos_fadd (h : R) (x y : pyfloat) :
  0 < h -> fmul (Fin h) (fadd x y) = fadd (fmul (Fin h) x) (fmul (Fin h) y).
Proof.
  intros Hh.
  destruct x, y; simpl; rewrite ?inf_times_pos by exact Hh;
    try reflexivity.
  f_equal. ring.
Qed.

(** A common positive factor of numerator and denominator cancels. *)
Lemma fdiv_scale_pos (h : R) (x y : pyfloat) :
  0 < h -> fdiv (fmul (Fin h) x) (fmul (Fin h) y) = fdiv x y.
Proof.
  intros Hh.
  destruct x as [a| | |], y as [b| | |]; simpl;
    rewrite ?inf_times_pos by exact Hh; simpl; try reflexivity.
  - destruct (Req_dec_T (h * b) 0) as [E | E], (Req_dec_T b 0) as [E' | E'];
      try (exfalso; nra).
    + unfold inf_times.
      destruct (total_order_T (h * a) 0) as [[H | H] | H],
               (total_order_T a 0) as [[H' | H'] | H'];
        try reflexivity; exfalso; nra.
    + f_equal. field. lra.
  - destruct (Rlt_dec (h * b) 0), (Rlt_dec b 0);
      try reflexivity; exfalso; nra.
  - destruct (Rlt_dec (h * b) 0), (Rlt_dec b 0);
      try reflexivity; exfalso; nra.
Qed.

Lemma fpow_Fin_pos (r y : R) :
  0 < r -> y <> 0 -> fpow (Fin r) y = Fin (Rpower r y).
Proof.
  intros Hr Hy. unfold fpow.
  destruct (Req_dec_T y 0) as [E | _]; [ contradiction | ].
  destruct (total_order_T r 0) as [[H | H] | H]; try reflexivity; lra.
Qed.

(** ** The trapezoidal sum *)

Lemma fold_left_fadd (l : list pyfloat) (a : pyfloat) :
  fold_left fadd l a = fadd a (fold_left fadd l (Fin 0)).
Proof.
  revert a. induction l as [|x l IH]; intros a; cbn [fold_left].
  - now rewrite fadd_0_r.
  - rewrite IH, (IH (fadd (Fin 0) x)), fadd_0_l. symmetry. apply fadd_assoc.
Qed.

Lemma np_sum_cons (x : pyfloat) (l : list pyfloat) :
  np_sum (x :: l) = fadd x (np_sum l).
Proof.
  unfold np_sum. cbn [fold_left]. rewrite fold_left_fadd, fadd_0_l.
  reflexivity.
Qed.

Lemma trapz_one (y0 : pyfloat) : trapz [y0] = Fin 0.
Proof. reflexivity. Qed.

Lemma trapz_cons (y0 y1 : pyfloat) (l : list pyfloat) :
  trapz (y0 :: y1 :: l) =
  fadd (fdiv (fmul (Fin 1) (fadd y1 y0)) (Fin 2)) (trapz (y1 :: l)).
Proof.
  unfold trapz. cbv zeta.
  change (tl (y0 :: y1 :: l)) with (y1 :: tl (y1 :: l)).
  change (removelast (y0 :: y1 :: l)) with (y0 :: removelast (y1 :: l)).
  unfold zip_with. simpl combine. simpl map. apply np_sum_cons.
Qed.

Lemma trapz_Fin (y : list R) : trapz (map Fin y) = Fin (trapz_R y).
Proof.
  induction y as [|y0 [|y1 l] IH]; try reflexivity.
  change (map Fin (y0 :: y1 :: l)) with (Fin y0 :: Fin y1 :: map Fin l).
  rewrite trapz_cons. change (Fin y1 :: map Fin l) with (map Fin (y1 :: l)).
  rewrite IH. simpl fadd. simpl fmul. simpl fdiv.
  destruct (Req_dec_T 2 0); [ lra | ].
  simpl. f_equal. field.
Qed.

Lemma trapz_R_scale (c : R) (y : list R) :
  trapz_R (map (Rmult c) y) = c * trapz_R y.
Proof.
  induction y as [|y0 [|y1 l] IH]; simpl; try ring.
  simpl in IH. rewrite IH. field.
Qed.

(** [trapz([1, 2, 4])] is [(2 + 1) / 2 + (4 + 2) / 2 = 4.5]; an
    infinite sample makes the sum infinite. *)
Example trapz_1_2_4 : trapz [Fin 1; Fin 2; Fin 4] = Fin 4.5.
Proof.
  change [Fin 1; Fin 2; Fin 4] with (map Fin [1; 2; 4]).
  rewrite trapz_Fin. f_equal. simpl. lra.
Qed.

Example trapz_inf : trapz [Fin 1; PInf; Fin 4] = PInf.
Proof.
  rewrite !trapz_cons, trapz_one. cbn [fadd fmul].
  rewrite !inf_times_pos by lra. cbn [fdiv].
  destruct (Rlt_dec 2 0); [ lra | reflexivity ].
Qed.

Lemma zip_with_map {A A' B B' C : Type} (f : A' -> B' -> C)
  (g : A -> A') (k : B -> B') (a : list A) (b : list B) :
  zip_with f (map g a) (map k b) = zip_with (fun x y => f (g x) (k y)) a b.
Proof.
  revert b. induction a as [|x a IH]; intros [|y b]; try reflexivity.
  unfold zip_with in *. simpl. f_equal. apply IH.
Qed.

Lemma map_zip_with {A B C D : Type} (h : C -> D) (f : A -> B -> C)
  (a : list A) (b : list B) :
  map h (zip_with f a b) = zip_with (fun x y => h (f x y)) a b.
Proof.
  unfold zip_with. rewrite map_map. reflexivity.
Qed.

Lemma zip_with_length {A B C : Type} (f : A -> B -> C)
  (a : list A) (b : list B) :
  List.length a = List.length b ->
  List.length (zip_with f a b) = List.length b.
Proof.
  intros H. unfold zip_with. rewrite length_map, length_combine. lia.
Qed.

Lemma trapezoid_cons (x0 x1 : R) (x : list R) (y0 y1 : pyfloat)
  (y : list pyfloat) :
  Spec.trapezoid (x0 :: x1 :: x) (y0 :: y1 :: y) =
  fadd (fmul (Fin (x1 - x0)) (fdiv (fadd y0 y1) (Fin 2)))
    (Spec.trapezoid (x1 :: x) (y1 :: y)).
Proof. reflexivity. Qed.

(** The code's sum is the quadrature over the sample indices. *)
Lemma trapz_sample_index (y : list pyfloat) (k : nat) :
  trapz y = Spec.trapezoid (map INR (seq k (List.length y))) y.
Proof.
  revert k. induction y as [|y0 [|y1 l] IH]; intros k; try reflexivity.
  rewrite trapz_cons, (IH (S k)).
  cbn [List.length seq map]. rewrite trapezoid_cons.
  rewrite S_INR. replace (INR k + 1 - INR k) with 1 by ring.
  rewrite !fmul_1_l, (fadd_comm y1 y0). reflexivity.
Qed.

(** Over uniformly spaced abscissae the quadrature is the step times the
    quadrature over the sample indices. *)
Lemma trapezoid_uniform (x0 h : R) (y : list pyfloat) (k n : nat) :
  0 < h ->
  Spec.trapezoid (map (fun i => x0 + INR i * h) (seq k n)) y =
  fmul (Fin h) (Spec.trapezoid (map INR (seq k n)) y).
Proof.
  intros Hh. revert k y.
  assert (H0 : Fin 0 = fmul (Fin h) (Fin 0)) by (simpl; f_equal; ring).
  induction n as [|n IH]; intros k y.
  - destruct y; exact H0.
  - destruct y as [|y0 [|y1 l]]; [ exact H0 | destruct n; exact H0 | ].
    destruct n as [|n]; [ exact H0 | ].
    specialize (IH (S k) (y1 :: l)).
    cbn [seq map] in IH.
    cbn [seq map]. rewrite !trapezoid_cons, IH.
    rewrite fmul_pos_fadd by exact Hh. f_equal.
    rewrite S_INR.
    replace (x0 + (INR k + 1) * h - (x0 + INR k * h)) with h by ring.
    replace (INR k + 1 - INR k) with 1 by ring.
    now rewrite fmul_1_l.
Qed.

(** [compute_effective_z] on a recognised stability and a transect. *)
Lemma compute_effective_z_returns (path_heights : list pyfloat)
  (path_positions : list R) (stability : option string)
  (out : list string) (b : R) :
  define_stability stability = (out, Returns b) ->
  List.length path_heights = List.length path_positions ->
  compute_effective_z path_heights path_positions stability =
  (out,
   Returns
     (fpow
        (fdiv (trapz (Spec.weighted b path_heights path_positions))
           (trapz (map Fin (path_weighting path_positions))))
        (1 / b))).
Proof.
  intros Hb Hlen. unfold compute_effective_z, bind at 1. rewrite Hb.
  cbn [fst snd]. unfold np_multiply.
  rewrite !length_map, path_weighting_length.
  rewrite (proj2 (Nat.eqb_eq _ _) Hlen).
  unfold bind, ret. cbn [fst snd]. rewrite !app_nil_r.
  rewrite path_weighting_map, map_zip_with, map_map, zip_with_map.
  reflexivity.
Qed.

(** [define_stability] never returns a zero exponent. *)
Lemma define_stability_nonzero (stability : option string)
  (out : list string) (b : R) :
  define_stability stability = (out, Returns b) -> b <> 0.
Proof.
  unfold define_stability.
  destruct (falsy stability).
  - intros H. injection H as _ <-. lra.
  - simpl dict_get.
    destruct (String.eqb (name_of stability) "stable").
    + intros H. injection H as _ <-. lra.
    + destruct (String.eqb (name_of stability) "unstable").
      * intros H. injection H as _ <-. lra.
      * discriminate.
Qed.

Lemma weighted_length (b : R) (heights : list pyfloat) (positions : list R) :
  List.length heights = List.length positions ->
  List.length (Spec.weighted b heights positions) = List.length positions.
Proof. intros H. unfold Spec.weighted. now apply zip_with_length. Qed.

(** After the replacement no weighted height is NaN. *)
Lemma weighted_no_nan (b : R) (heights : list pyfloat) (positions : list R) :
  Forall (fun w => isnan w = false) (Spec.weighted b heights positions).
Proof.
  unfold Spec.weighted, zip_with. apply Forall_forall. intros w Hin.
  apply in_map_iff in Hin. destruct Hin as [[h x] [<- _]]. cbn [fst snd].
  cbv zeta.
  destruct (fmul (fpow h b) (Fin (Spec.pathWeight x))); reflexivity.
Qed.

(** Finite positive heights give finite weighted heights. *)
Lemma weighted_Fin (b : R) (hs xs : list R) :
  b <> 0 ->
  Forall (fun h => 0 < h) hs ->
  Spec.weighted b (map Fin hs) xs =
  map Fin (zip_with (fun h x => Rpower h b * Spec.pathWeight x) hs xs).
Proof.
  intros Hb Hpos. revert xs.
  induction Hpos as [|h hs Hh Hpos IH]; intros [|x xs]; try reflexivity.
  unfold Spec.weighted, zip_with in *. cbn [map combine fst snd].
  rewrite IH, fpow_Fin_pos by assumption. reflexivity.
Qed.

Lemma trapezoid_Fin (x y : list R) :
  Spec.trapezoid x (map Fin y) = Fin (trapezoid_R x y).
Proof.
  revert x. induction y as [|y0 [|y1 y] IH]; intros [|x0 [|x1 x]];
    try reflexivity.
  change (map Fin (y0 :: y1 :: y)) with (Fin y0 :: Fin y1 :: map Fin y).
  rewrite trapezoid_cons.
  change (Fin y1 :: map Fin y) with (map Fin (y1 :: y)). rewrite IH.
  cbn [fadd fdiv]. destruct (Req_dec_T 2 0); [ lra | ]. reflexivity.
Qed.

Lemma fdiv_Fin (a b : R) : b <> 0 -> fdiv (Fin a) (Fin b) = Fin (a / b).
Proof.
  intros Hb. simpl. destruct (Req_dec_T b 0); [ contradiction | reflexivity ].
Qed.

(** ** The effective height *)

(** For the same samples, quadrature over uniformly spaced abscissae and
    over the sample indices give the same quotient. *)
Lemma quotient_uniform (x0 h : R) (n : nat) (absc : list R)
  (ys ws : list pyfloat) :
  0 < h -> absc = Spec.uniform x0 h n ->
  fdiv (Spec.trapezoid absc ys) (Spec.trapezoid absc ws) =
  fdiv (Spec.trapezoid (Spec.sample_index n) ys)
    (Spec.trapezoid (Spec.sample_index n) ws).
Proof.
  intros Hh ->. unfold Spec.uniform, Spec.sample_index.
  rewrite !trapezoid_uniform by exact Hh. apply fdiv_scale_pos. exact Hh.
Qed.

(** C1 (Effective height).  For a transect and a recognised stability
    with exponent [b], [compute_effective_z] returns
    [(I(weighted) / I(pathWeight))^(1/b)] where
    [weighted[i] = heights[i]^b * pathWeight(positions[i])] with NaN
    entries replaced by 0 and [I] is the trapezoidal quadrature over the
    sample indices; when the positions are uniformly spaced with a
    positive step this is the quadrature over the position domain. *)
Theorem compute_effective_z_quadrature (path_heights : list pyfloat)
  (path_positions : list R) (stability : option string)
  (out : list string) (b : R) :
  define_stability stability = (out, Returns b) ->
  List.length path_heights = List.length path_positions ->
  compute_effective_z path_heights path_positions stability
  = (out,
     Returns
       (Spec.effectiveHeight
          (Spec.sample_index (List.length path_positions)) b
          path_heights path_positions))
  /\
  (forall x0 h : R,
     0 < h ->
     path_positions = Spec.uniform x0 h (List.length path_positions) ->
     compute_effective_z path_heights path_positions stability
     = (out,
        Returns
          (Spec.effectiveHeight path_positions b
             path_heights path_positions))).
Proof.
  intros Hb Hlen.
  assert (Hidx :
    compute_effective_z path_heights path_positions stability
    = (out,
       Returns
         (Spec.effectiveHeight
            (Spec.sample_index (List.length path_positions)) b
            path_heights path_positions))).
  { rewrite (compute_effective_z_returns _ _ _ _ _ Hb Hlen).
    unfold Spec.effectiveHeight, Spec.sample_index.
    rewrite (trapz_sample_index (Spec.weighted _ _ _) 0).
    rewrite (trapz_sample_index (map Fin _) 0).
    rewrite weighted_length by exact Hlen.
    rewrite length_map, path_weighting_length.
    rewrite path_weighting_map, map_map. reflexivity. }
  split; [ exact Hidx | ].
  intros x0 h Hh Hpos. rewrite Hidx. unfold Spec.effectiveHeight.
  rewrite (quotient_uniform x0 h (List.length path_positions)
             path_positions _ _ Hh Hpos).
  reflexivity.
Qed.

Lemma pathWeight_pos (x : R) : 0.2 <= x <= 0.8 -> 0 < Spec.pathWeight x.
Proof.
  intros Hx. unfold Spec.pathWeight.
  assert (Hl := bessel_second_lower x ltac:(lra)).
  assert (Hpi := PI_RGT_0). assert (Hpi4 := PI_4).
  set (y := PI * (x - 0.5)).
  assert (Hy : -1.2 <= y <= 1.2) by (unfold y; split; nra).
  replace (2.283 * PI * (x - 0.5) / 2) with (2.283 / 2 * y) in Hl
    by (unfold y; field).
  unfold Rsqr in Hl. nra.
Qed.

(** On finite positive heights the result is a power of a quotient of
    real sums. *)
Lemma compute_effective_z_finite (hs xs : list R) (stability : option string)
  (out : list string) (b : R) :
  define_stability stability = (out, Returns b) ->
  List.length hs = List.length xs ->
  Forall (fun h => 0 < h) hs ->
  let N := trapz_R (zip_with (fun h x => Rpower h b * Spec.pathWeight x) hs xs)
  in
  let D := trapz_R (map Spec.pathWeight xs) in
  D <> 0 -> 0 < N / D ->
  compute_effective_z (map Fin hs) xs stability
  = (out, Returns (Fin (Rpower (N / D) (1 / b)))).
Proof.
  intros Hb Hlen Hpos N D HD HND.
  assert (Hb0 := define_stability_nonzero _ _ _ Hb).
  rewrite (compute_effective_z_returns _ _ _ _ _ Hb)
    by (rewrite length_map; exact Hlen).
  rewrite weighted_Fin by assumption.
  rewrite path_weighting_map.
  change (fun i => 2.163 * bessel_second i) with Spec.pathWeight.
  rewrite !trapz_Fin. fold N D.
  rewrite fdiv_Fin by exact HD.
  rewrite fpow_Fin_pos; [ reflexivity | exact HND | ].
  unfold Rdiv. rewrite Rmult_1_l. apply Rinv_neq_0_compat. exact Hb0.
Qed.

Lemma effectiveHeight_finite (absc hs xs : list R) (b : R) :
  b <> 0 ->
  Forall (fun h => 0 < h) hs ->
  let N :=
    trapezoid_R absc
      (zip_with (fun h x => Rpower h b * Spec.pathWeight x) hs xs) in
  let D := trapezoid_R absc (map Spec.pathWeight xs) in
  D <> 0 -> 0 < N / D ->
  Spec.effectiveHeight absc b (map Fin hs) xs
  = Fin (Rpower (N / D) (1 / b)).
Proof.
  intros Hb0 Hpos N D HD HND. unfold Spec.effectiveHeight.
  rewrite weighted_Fin by assumption.
  rewrite <- (map_map Spec.pathWeight Fin).
  rewrite !trapezoid_Fin. fold N D.
  rewrite fdiv_Fin by exact HD.
  rewrite fpow_Fin_pos; [ reflexivity | exact HND | ].
  unfold Rdiv. rewrite Rmult_1_l. apply Rinv_neq_0_compat. exact Hb0.
Qed.

(** C1, as stated, fails: on the transect with heights 1, 1, 2 at the
    positions 0.3, 0.5, 0.6 and no stability, the value returned is not
    the one obtained by integrating over the position domain. *)
Lemma effective_height_not_over_positions :
  ~ Spec.over_position_domain (map Fin [1; 1; 2]) [0.3; 0.5; 0.6] None.
Proof.
  intros H.
  assert (Hd : define_stability None
               = (["No height dependency selected."%string], Returns 1))
    by reflexivity.
  specialize (H _ 1 Hd).
  assert (Ha := pathWeight_pos 0.3 ltac:(lra)).
  assert (Hc := pathWeight_pos 0.5 ltac:(lra)).
  assert (Ha' := pathWeight_pos 0.6 ltac:(lra)).
  assert (Hp1 : Forall (fun h => 0 < h) [1; 1; 2])
    by (repeat constructor; lra).
  pose proof (compute_effective_z_finite [1; 1; 2] [0.3; 0.5; 0.6] None _ 1
                Hd eq_refl Hp1) as Hcode.
  pose proof (effectiveHeight_finite [0.3; 0.5; 0.6] [1; 1; 2]
                [0.3; 0.5; 0.6] 1 ltac:(lra) Hp1) as Hspec.
  cbv zeta in Hcode, Hspec.
  cbn [zip_with combine map fst snd trapz_R trapezoid_R] in Hcode, Hspec.
  rewrite !Rpower_1 in Hcode, Hspec by lra.
  set (a := Spec.pathWeight 0.3) in *.
  set (c := Spec.pathWeight 0.5) in *.
  set (a' := Spec.pathWeight 0.6) in *.
  set (N := (1 * c + 1 * a) / 2 + ((2 * a' + 1 * c) / 2 + 0)) in *.
  set (D := (c + a) / 2 + ((a' + c) / 2 + 0)) in *.
  set (N' := (0.5 - 0.3) * ((1 * a + 1 * c) / 2)
             + ((0.6 - 0.5) * ((1 * c + 2 * a') / 2) + 0)) in *.
  set (D' := (0.5 - 0.3) * ((a + c) / 2)
             + ((0.6 - 0.5) * ((c + a') / 2) + 0)) in *.
  assert (HD : 0 < D) by (unfold D; lra).
  assert (HD' : 0 < D') by (unfold D'; lra).
  assert (HN : 0 < N) by (unfold N; lra).
  assert (HN' : 0 < N') by (unfold N'; lra).
  cbn [map] in H.
  rewrite Hcode in H;
    [ | lra | apply Rdiv_lt_0_compat; assumption ].
  rewrite Hspec in H;
    [ | lra | apply Rdiv_lt_0_compat; assumption ].
  assert (E : Rpower (N / D) (1 / 1) = Rpower (N' / D') (1 / 1))
    by congruence.
  replace (1 / 1) with 1 in E by field.
  rewrite !Rpower_1 in E by (apply Rdiv_lt_0_compat; assumption).
  assert (E1 : N * D' = N' * D).
  { replace N with (N / D * D) by (field; lra). rewrite E. field. lra. }
  assert (Haa : 0 < a' * a) by (apply Rmult_lt_0_compat; assumption).
  assert (Hac : 0 < a' * c) by (apply Rmult_lt_0_compat; assumption).
  unfold N, D, N', D' in E1. nra.
Qed.

Lemma compute_effective_z_quadrature_witness :
  compute_effective_z (map Fin [1; 1; 2]) [0.3; 0.5; 0.6] None
  = (["No height dependency selected."%string],
     Returns
       (Spec.effectiveHeight (Spec.sample_index 3) 1
          (map Fin [1; 1; 2]) [0.3; 0.5; 0.6]))
  /\
  compute_effective_z (map Fin [1; 1; 2]) [0; 0.5; 1] (Some "stable"%string)
  = ([],
     Returns
       (Spec.effectiveHeight [0; 0.5; 1] (-2 / 3)
          (map Fin [1; 1; 2]) [0; 0.5; 1])).
Proof.
  split.
  - apply (proj1 (compute_effective_z_quadrature
                    (map Fin [1; 1; 2]) [0.3; 0.5; 0.6] None
                    ["No height dependency selected."%string] 1
                    eq_refl eq_refl)).
  - apply (proj2 (compute_effective_z_quadrature
                    (map Fin [1; 1; 2]) [0; 0.5; 1] (Some "stable"%string)
                    [] (-2 / 3) eq_refl eq_refl) 0 0.5).
    + lra.
    + unfold Spec.uniform. cbn [List.length seq map INR].
      repeat f_equal; lra.
Defined.

Lemma pathWeight_lower (x : R) :
  0 <= x <= 1 ->
  2.163 * (1 - 2.283 * 2.283 * (PI * PI) * ((x - 0.5) * (x - 0.5)) / 8)
  <= Spec.pathWeight x.
Proof.
  intros Hx. unfold Spec.pathWeight.
  assert (Hl := bessel_second_lower x Hx). unfold Rsqr in Hl.
  replace (2.283 * 2.283 * (PI * PI) * ((x - 0.5) * (x - 0.5)) / 8)
    with (2.283 * PI * (x - 0.5) / 2 * (2.283 * PI * (x - 0.5) / 2) / 2)
    by field.
  lra.
Qed.

(** The five weights of the uniform transect have a positive sum. *)
Lemma uniform5_weight_pos :
  0 < trapz_R (map Spec.pathWeight [0; 0.25; 0.5; 0.75; 1]).
Proof.
  cbn [map trapz_R].
  assert (H0 := pathWeight_lower 0 ltac:(lra)).
  assert (H1 := pathWeight_lower 0.25 ltac:(lra)).
  assert (H2 := pathWeight_lower 0.5 ltac:(lra)).
  assert (H3 := pathWeight_lower 0.75 ltac:(lra)).
  assert (H4 := pathWeight_lower 1 ltac:(lra)).
  assert (Hpi := PI_RGT_0). assert (Hpi4 := PI_4).
  assert (Hs : 0 < PI * PI <= 16) by (split; nra).
  set (s := PI * PI) in *. lra.
Qed.

Lemma zip_with_const {A B C : Type} (f : A -> B -> C) (c : A) (b : list B) :
  zip_with f (map (fun _ => c) b) b = map (f c) b.
Proof.
  unfold zip_with. induction b as [|y b IH]; simpl; [ reflexivity | ].
  f_equal. exact IH.
Qed.

(** A transect of constant positive height [c] has the effective height
    [c], whatever the recognised stability and the positions, provided
    the sum of the weights is positive. *)
Lemma constant_height (c : R) (xs : list R) (stability : option string)
  (out : list string) (b : R) :
  0 < c ->
  define_stability stability = (out, Returns b) ->
  0 < trapz_R (map Spec.pathWeight xs) ->
  compute_effective_z (map Fin (map (fun _ => c) xs)) xs stability
  = (out, Returns (Fin c)).
Proof.
  intros Hc Hb HD.
  assert (Hb0 := define_stability_nonzero _ _ _ Hb).
  assert (HN :
    trapz_R (zip_with (fun h x => Rpower h b * Spec.pathWeight x)
               (map (fun _ => c) xs) xs)
    = Rpower c b * trapz_R (map Spec.pathWeight xs)).
  { rewrite zip_with_const, <- trapz_R_scale, map_map. reflexivity. }
  assert (Hq :
    trapz_R (zip_with (fun h x => Rpower h b * Spec.pathWeight x)
               (map (fun _ => c) xs) xs)
    / trapz_R (map Spec.pathWeight xs) = Rpower c b).
  { rewrite HN. field. lra. }
  rewrite (compute_effective_z_finite _ xs stability out b Hb).
  - rewrite Hq, Rpower_mult.
    replace (b * (1 / b)) with 1 by (field; exact Hb0).
    rewrite Rpower_1 by exact Hc. reflexivity.
  - now rewrite length_map.
  - apply Forall_forall. intros h Hin. apply in_map_iff in Hin.
    destruct Hin as [_ [<- _]]. exact Hc.
  - lra.
  - rewrite Hq. apply exp_pos.
Qed.

(** C2 (Constant transect).  For five points uniformly spaced in [0, 1]
    with the constant height 10, [compute_effective_z] returns 10 in
    exact arithmetic for the stability "unstable", and likewise for
    "stable" and for no stability: the weights and the exponent cancel,
    as they do for every positive constant height and every sampling
    whose weights have a positive trapezoidal sum. *)
Theorem constant_transect_effective_height :
  compute_effective_z [Fin 10; Fin 10; Fin 10; Fin 10; Fin 10]
    [0; 0.25; 0.5; 0.75; 1] (Some "unstable"%string)
  = ([], Returns (Fin 10))
  /\
  compute_effective_z [Fin 10; Fin 10; Fin 10; Fin 10; Fin 10]
    [0; 0.25; 0.5; 0.75; 1] (Some "stable"%string)
  = ([], Returns (Fin 10))
  /\
  compute_effective_z [Fin 10; Fin 10; Fin 10; Fin 10; Fin 10]
    [0; 0.25; 0.5; 0.75; 1] None
  = (["No height dependency selected."%string], Returns (Fin 10))
  /\
  (forall (c : R) (xs : list R) (stability : option string)
          (out : list string) (b : R),
     0 < c ->
     define_stability stability = (out, Returns b) ->
     0 < trapz_R (map (fun x => 2.163 * bessel_second x) xs) ->
     compute_effective_z (map (fun _ => Fin c) xs) xs stability
     = (out, Returns (Fin c))).
Proof.
  split; [ | split; [ | split ] ].
  - apply (constant_height 10 [0; 0.25; 0.5; 0.75; 1] _ _ (-4 / 3));
      [ lra | reflexivity | exact uniform5_weight_pos ].
  - apply (constant_height 10 [0; 0.25; 0.5; 0.75; 1] _ _ (-2 / 3));
      [ lra | reflexivity | exact uniform5_weight_pos ].
  - apply (constant_height 10 [0; 0.25; 0.5; 0.75; 1] _ _ 1);
      [ lra | reflexivity | exact uniform5_weight_pos ].
  - intros c xs stability out b Hc Hb HD.
    rewrite <- (constant_height c xs stability out b Hc Hb HD).
    now rewrite map_map.
Qed.

Lemma constant_transect_effective_height_witness :
  compute_effective_z [Fin 7; Fin 7; Fin 7] [0.4; 0.5; 0.6]
    (Some "stable"%string)
  = ([], Returns (Fin 7)).
Proof.
  apply (proj2 (proj2 (proj2 constant_transect_effective_height))
           7 [0.4; 0.5; 0.6] (Some "stable"%string) [] (-2 / 3)).
  - lra.
  - reflexivity.
  - cbn [map trapz_R].
    assert (H4 := pathWeight_pos 0.4 ltac:(lra)).
    assert (H5 := pathWeight_pos 0.5 ltac:(lra)).
    assert (H6 := pathWeight_pos 0.6 ltac:(lra)).
    unfold Spec.pathWeight in H4, H5, H6. lra.
Defined.

(** *** The constant transect with the exponents the program holds *)

Module RoundedExponentsFacts.
Import PrimFloat.

Lemma define_stability_unstable :
  RoundedExponents.define_stability (Some "unstable"%string)
  = ([], Returns (-4 / 3)%float).
Proof. reflexivity. Qed.

(** The double nearest to -4/3 is [-6004799503160661 / 2^52]. *)
Lemma value_unstable :
  RoundedExponents.value (-4 / 3)%float
  = - 6004799503160661 / 4503599627370496.
Proof.
  unfold RoundedExponents.value.
  replace (FloatOps.Prim2SF (-4 / 3)%float)
    with (SpecFloat.S754_finite true 6004799503160661 (-52))
    by (vm_compute; reflexivity).
  change (IZR (Z.neg 6004799503160661) / IZR 4503599627370496
          = - 6004799503160661 / 4503599627370496).
  lra.
Qed.

(** Its reciprocal rounds to -0.75, the reciprocal of -4/3 itself. *)
Lemma value_unstable_reciprocal :
  RoundedExponents.value (one / (-4 / 3))%float = - 0.75.
Proof.
  unfold RoundedExponents.value.
  replace (FloatOps.Prim2SF (one / (-4 / 3))%float)
    with (SpecFloat.S754_finite true 6755399441055744 (-53))
    by (vm_compute; reflexivity).
  change (IZR (Z.neg 6755399441055744) / IZR 9007199254740992 = - 0.75).
  lra.
Qed.

End RoundedExponentsFacts.

Lemma compute_effective_z_returns_rounded (path_heights : list pyfloat)
  (path_positions : list R) (stability : option string)
  (out : list string) (b : PrimFloat.float) :
  RoundedExponents.define_stability stability = (out, Returns b) ->
  List.length path_heights = List.length path_positions ->
  RoundedExponents.compute_effective_z path_heights path_positions stability
  = (out,
     Returns
       (fpow
          (fdiv
             (trapz (Spec.weighted (RoundedExponents.value b) path_heights
                       path_positions))
             (trapz (map Fin (path_weighting path_positions))))
          (RoundedExponents.value (PrimFloat.div PrimFloat.one b)))).
Proof.
  intros Hb Hlen. unfold RoundedExponents.compute_effective_z, bind at 1.
  rewrite Hb. cbn [fst snd]. unfold np_multiply.
  rewrite !length_map, path_weighting_length.
  rewrite (proj2 (Nat.eqb_eq _ _) Hlen).
  unfold bind, ret. cbn [fst snd]. rewrite !app_nil_r.
  rewrite path_weighting_map, map_zip_with, map_map, zip_with_map.
  reflexivity.
Qed.

(** With a rounded exponent [b] and a rounded reciprocal [r], a
    transect of constant positive height [c] gives [c] to the power
    [b * r]. *)
Lemma constant_height_rounded (c : R) (xs : list R)
  (stability : option string) (out : list string) (b : PrimFloat.float) :
  0 < c ->
  RoundedExponents.define_stability stability = (out, Returns b) ->
  RoundedExponents.value b <> 0 ->
  RoundedExponents.value (PrimFloat.div PrimFloat.one b) <> 0 ->
  0 < trapz_R (map Spec.pathWeight xs) ->
  RoundedExponents.compute_effective_z (map Fin (map (fun _ => c) xs)) xs
    stability
  = (out,
     Returns
       (Fin (Rpower c
               (RoundedExponents.value b
                * RoundedExponents.value (PrimFloat.div PrimFloat.one b))))).
Proof.
  intros Hc Hb Hb0 Hr0 HD.
  rewrite (compute_effective_z_returns_rounded _ _ _ out b Hb)
    by (now rewrite !length_map).
  rewrite weighted_Fin; [ | exact Hb0 | ].
  2:{ apply Forall_forall. intros h Hin. apply in_map_iff in Hin.
      destruct Hin as [_ [<- _]]. exact Hc. }
  rewrite path_weighting_map.
  change (fun i => 2.163 * bessel_second i) with Spec.pathWeight.
  rewrite !trapz_Fin, zip_with_const.
  rewrite <- (map_map Spec.pathWeight
                (Rmult (Rpower c (RoundedExponents.value b)))).
  rewrite trapz_R_scale.
  rewrite fdiv_Fin by lra.
  replace (Rpower c (RoundedExponents.value b)
           * trapz_R (map Spec.pathWeight xs)
           / trapz_R (map Spec.pathWeight xs))
    with (Rpower c (RoundedExponents.value b)) by (field; lra).
  rewrite fpow_Fin_pos; [ | apply exp_pos | exact Hr0 ].
  now rewrite Rpower_mult.
Qed.

Lemma ln_10_bounds : 2 < ln 10 < 3.2.
Proof.
  split.
  - apply exp_lt_inv. rewrite exp_ln by lra.
    replace 2 with (1 + 1) by lra. rewrite exp_plus.
    assert (H3 := exp_le_3). assert (H0 := exp_pos 1). nra.
  - apply exp_lt_inv. rewrite exp_ln by lra.
    replace 3.2 with (0.8 + 0.8 + (0.8 + 0.8)) by lra.
    rewrite !exp_plus.
    assert (H := exp_ineq1_le 0.8).
    set (y := exp 0.8) in *.
    assert (H2 : 3.24 <= y * y) by nra.
    nra.
Qed.

(** C2, as stated, fails with the exponents the program holds: [b] is
    the double nearest to -4/3 and [1 / b] rounds to -0.75, so that
    [b * (1 / b)] is [1 - 2^-54] and, all other operations being exact,
    five points of height 10 give [10^(1 - 2^-54)].  This number lies
    between the double before 10, [10 - 2^-49], and the middle of the
    two, so it is not 10 and the double nearest to it is not 10. *)
Lemma constant_transect_rounded_exponents :
  exists z : R,
    RoundedExponents.compute_effective_z
      [Fin 10; Fin 10; Fin 10; Fin 10; Fin 10] [0; 0.25; 0.5; 0.75; 1]
      (Some "unstable"%string)
    = ([], Returns (Fin z)) /\
    z = Rpower 10 (1 - / 2 ^ 54) /\
    10 - / 2 ^ 49 < z < 10 - / 2 ^ 50.
Proof.
  exists (Rpower 10 (1 - / 2 ^ 54)).
  split; [ | split; [ reflexivity | ] ].
  - change [Fin 10; Fin 10; Fin 10; Fin 10; Fin 10]
      with (map Fin (map (fun _ : R => 10) [0; 0.25; 0.5; 0.75; 1])).
    rewrite (constant_height_rounded 10 [0; 0.25; 0.5; 0.75; 1] _ _ _
               ltac:(lra) RoundedExponentsFacts.define_stability_unstable).
    + rewrite RoundedExponentsFacts.value_unstable,
        RoundedExponentsFacts.value_unstable_reciprocal.
      replace (2 ^ 54) with 18014398509481984 by (simpl; lra).
      do 4 f_equal. lra.
    + rewrite RoundedExponentsFacts.value_unstable. lra.
    + rewrite RoundedExponentsFacts.value_unstable_reciprocal. lra.
    + exact uniform5_weight_pos.
  - destruct ln_10_bounds as [Hl Hu].
    set (e := / 2 ^ 54).
    assert (He : e = / 18014398509481984) by (unfold e; f_equal; simpl; lra).
    assert (He0 : 0 < e < / 4) by (rewrite He; lra).
    replace (/ 2 ^ 49) with (32 * e)
      by (rewrite He; simpl; lra).
    replace (/ 2 ^ 50) with (16 * e)
      by (rewrite He; simpl; lra).
    unfold Rpower.
    replace ((1 - e) * ln 10) with (ln 10 + - (e * ln 10)) by ring.
    rewrite exp_plus, exp_ln by lra.
    set (x := e * ln 10).
    assert (Hx : 2 * e < x < 3.2 * e) by (unfold x; nra).
    assert (Hlow : 1 + - x <= exp (- x)) by apply exp_ineq1_le.
    assert (Hup : exp (- x) * (1 + x) <= 1).
    { assert (H1 : 1 + x <= exp x) by apply exp_ineq1_le.
      assert (H2 : exp (- x) * exp x = 1)
        by (rewrite <- exp_plus; replace (- x + x) with 0 by ring;
            apply exp_0).
      assert (H3 := exp_pos (- x)). nra. }
    assert (Hpos := exp_pos (- x)).
    split; nra.
Qed.

(** C10 (Positions enter through their weights only).  Two position
    series of the same length with the same path weights give the same
    result for every heights series and stability; the integrals are
    trapezoidal sums over the sample indices, in which no position
    occurs. *)
Theorem compute_effective_z_weights_only (path_heights : list pyfloat)
  (p p' : list R) (stability : option string) :
  List.length p = List.length p' ->
  path_weighting p = path_weighting p' ->
  compute_effective_z path_heights p stability
  = compute_effective_z path_heights p' stability
  /\
  trapz (map Fin (path_weighting p))
  = Spec.trapezoid (Spec.sample_index (List.length p))
      (map Fin (path_weighting p')).
Proof.
  intros Hlen Hw. split.
  - unfold compute_effective_z. rewrite Hw. reflexivity.
  - rewrite <- Hw, (trapz_sample_index _ 0), length_map,
      path_weighting_length.
    reflexivity.
Qed.

Lemma compute_effective_z_weights_only_witness :
  compute_effective_z [Fin 3; NaN; Fin 0] [0.2; 0.5; 0.6]
    (Some "unstable"%string)
  = compute_effective_z [Fin 3; NaN; Fin 0] [0.8; 0.5; 0.4]
      (Some "unstable"%string).
Proof.
  apply (compute_effective_z_weights_only [Fin 3; NaN; Fin 0]
           [0.2; 0.5; 0.6] [0.8; 0.5; 0.4] (Some "unstable"%string)).
  - reflexivity.
  - rewrite !path_weighting_map. cbn [map].
    replace 0.2 with (0.5 - 0.3) by lra.
    replace 0.8 with (0.5 + 0.3) by lra.
    replace 0.6 with (0.5 + 0.1) by lra.
    replace 0.4 with (0.5 - 0.1) by lra.
    rewrite !bessel_second_mirror. reflexivity.
Defined.

(** *** Degenerate points of a transect *)

Lemma fpow_NaN (y : R) : y <> 0 -> fpow NaN y = NaN.
Proof.
  intros Hy. unfold fpow.
  destruct (Req_dec_T y 0); [ contradiction | reflexivity ].
Qed.

Lemma fpow_zero_neg (y : R) : y < 0 -> fpow (Fin 0) y = PInf.
Proof.
  intros Hy. unfold fpow.
  destruct (Req_dec_T y 0); [ lra | ].
  destruct (total_order_T 0 0) as [[H | _] | H]; try lra.
  destruct (Rlt_dec y 0); [ reflexivity | contradiction ].
Qed.

Lemma fpow_PInf_neg (y : R) : y < 0 -> fpow PInf y = Fin 0.
Proof.
  intros Hy. unfold fpow.
  destruct (Req_dec_T y 0); [ lra | ].
  destruct (Rlt_dec y 0); [ reflexivity | contradiction ].
Qed.

(** A height that is NaN contributes the weighted height 0: the result
    is finite, below the height 2 of the other two points. *)
Example nan_height_is_dropped :
  exists r : R,
    0 < r < 2 /\
    compute_effective_z [Fin 2; NaN; Fin 2] [0.25; 0.5; 0.75] None
    = (["No height dependency selected."%string], Returns (Fin r)).
Proof.
  assert (Hd : define_stability None
               = (["No height dependency selected."%string], Returns 1))
    by reflexivity.
  assert (Hw1 := pathWeight_pos 0.25 ltac:(lra)).
  assert (Hw2 := pathWeight_pos 0.5 ltac:(lra)).
  assert (Hw3 := pathWeight_pos 0.75 ltac:(lra)).
  rewrite (compute_effective_z_returns [Fin 2; NaN; Fin 2]
             [0.25; 0.5; 0.75] None _ 1 Hd eq_refl).
  unfold Spec.weighted, zip_with. cbn [combine map fst snd].
  rewrite fpow_Fin_pos, fpow_NaN, Rpower_1 by lra.
  cbn [fmul isnan].
  rewrite path_weighting_map.
  change (fun i => 2.163 * bessel_second i) with Spec.pathWeight.
  change [Fin (2 * Spec.pathWeight 0.25); Fin 0;
          Fin (2 * Spec.pathWeight 0.75)]
    with (map Fin [2 * Spec.pathWeight 0.25; 0; 2 * Spec.pathWeight 0.75]).
  rewrite !trapz_Fin. cbn [map trapz_R].
  set (w1 := Spec.pathWeight 0.25) in *.
  set (w2 := Spec.pathWeight 0.5) in *.
  set (w3 := Spec.pathWeight 0.75) in *.
  set (N := (0 + 2 * w1) / 2 + ((2 * w3 + 0) / 2 + 0)).
  set (D := (w2 + w1) / 2 + ((w3 + w2) / 2 + 0)).
  assert (HN : 0 < N) by (unfold N; lra).
  assert (HD : 0 < D) by (unfold D; lra).
  assert (Hq : 0 < N / D) by (apply Rdiv_lt_0_compat; assumption).
  rewrite fdiv_Fin by lra.
  rewrite fpow_Fin_pos by (try exact Hq; lra).
  replace (1 / 1) with 1 by field. rewrite Rpower_1 by exact Hq.
  exists (N / D). split; [ split; [ exact Hq | ] | reflexivity ].
  apply Rmult_lt_reg_r with (r := D); [ exact HD | ].
  replace (N / D * D) with N by (field; lra).
  unfold N, D. lra.
Qed.

(** A height 0 under a negative exponent gives an infinite weighted
    height, which is not NaN and is kept: the result is 0. *)
Example ground_contact_gives_zero :
  compute_effective_z [Fin 0; Fin 5] [0.4; 0.6] (Some "unstable"%string)
  = ([], Returns (Fin 0)).
Proof.
  assert (Hd : define_stability (Some "unstable"%string)
               = ([], Returns (-4 / 3)))
    by reflexivity.
  assert (Hw1 := pathWeight_pos 0.4 ltac:(lra)).
  assert (Hw2 := pathWeight_pos 0.6 ltac:(lra)).
  rewrite (compute_effective_z_returns [Fin 0; Fin 5] [0.4; 0.6]
             _ _ _ Hd eq_refl).
  unfold Spec.weighted, zip_with. cbn [combine map fst snd].
  rewrite fpow_zero_neg, fpow_Fin_pos by lra.
  cbn [fmul]. rewrite inf_times_pos by exact Hw1. cbn [isnan].
  rewrite trapz_cons, trapz_one. cbn [fadd fmul].
  rewrite inf_times_pos by lra. cbn [fdiv fadd].
  destruct (Rlt_dec 2 0); [ lra | ].
  rewrite path_weighting_map.
  change (fun i => 2.163 * bessel_second i) with Spec.pathWeight.
  rewrite trapz_Fin, fadd_0_r. cbn [map trapz_R fdiv].
  destruct (Rlt_dec ((Spec.pathWeight 0.6 + Spec.pathWeight 0.4) / 2 + 0) 0);
    [ lra | ].
  rewrite fpow_PInf_neg by lra. reflexivity.
Qed.

(** The effective and the mean height of the constant transect. *)
Example get_z_parameters_constant :
  get_z_parameters
    [(Fin 10, 0); (Fin 10, 0.25); (Fin 10, 0.5); (Fin 10, 0.75); (Fin 10, 1)]
    (Some "unstable"%string)
  = ([], Returns (Fin 10, Fin 10)).
Proof.
  unfold get_z_parameters. cbn [map fst snd].
  change [Fin 10; Fin 10; Fin 10; Fin 10; Fin 10]
    with (map Fin (map (fun _ : R => 10) [0; 0.25; 0.5; 0.75; 1])) at 1.
  rewrite (constant_height 10 [0; 0.25; 0.5; 0.75; 1]
             (Some "unstable"%string) [] (-4 / 3) ltac:(lra) eq_refl
             uniform5_weight_pos).
  unfold bind, ret. cbn [fst snd app]. do 3 f_equal.
  unfold np_mean, np_sum.
  cbn [filter map isnan negb fold_left fadd List.length Nat.eqb].
  rewrite fdiv_Fin by (simpl; lra). f_equal. simpl. field.
Qed.

(** ** Properties of the profile construction *)

Module ConstructionsFacts.
Import Constructions.

Lemma zip_with_left {A B : Type} (f : A -> B -> A) (a : list A) (b : list B) :
  (forall x y, f x y = x) ->
  List.length a = List.length b ->
  zip_with f a b = a.
Proof.
  intros Hf. revert b. unfold zip_with.
  induction a as [|x a IH]; intros [|y b] Hlen; try discriminate;
    [ reflexivity | ].
  simpl. rewrite Hf. f_equal. apply IH. simpl in Hlen. lia.
Qed.

Section Pressure.

Variable c : AtmosConstants.

Lemma reduced_pressure_0 (p tv : R) : reduced_pressure c p tv 0 = p.
Proof.
  unfold reduced_pressure, Rdiv. rewrite Rmult_0_l, exp_0. ring.
Qed.

Lemma get_air_pressure_ref (p t z : R) : get_air_pressure c p t z z = p.
Proof.
  unfold get_air_pressure, Rdiv.
  replace (- (z - z)) with 0 by ring.
  rewrite !Rmult_0_l, exp_0. ring.
Qed.

Hypothesis r_dry_pos : 0 < r_dry c.
Hypothesis g_nonzero : g c <> 0.

Lemma get_air_pressure_lt (p t z_target z_ref : R) :
  0 < p -> 0 < t -> z_ref < z_target ->
  get_air_pressure c p t z_target z_ref < p.
Proof.
  intros Hp Ht Hz. unfold get_air_pressure.
  assert (Hag : 0 < Rabs (g c)) by (apply Rabs_pos_lt; exact g_nonzero).
  assert (Hden : 0 < r_dry c * t) by (apply Rmult_lt_0_compat; assumption).
  assert (Hneg : - (z_target - z_ref) * Rabs (g c) / (r_dry c * t) < 0).
  { unfold Rdiv.
    assert (Hi : 0 < / (r_dry c * t)) by (apply Rinv_0_lt_compat; exact Hden).
    assert (Hn : - (z_target - z_ref) * Rabs (g c) < 0) by nra.
    nra. }
  assert (He : exp (- (z_target - z_ref) * Rabs (g c) / (r_dry c * t)) < 1).
  { rewrite <- exp_0. apply exp_increasing. exact Hneg. }
  nra.
Qed.

End Pressure.

Lemma column_at_label (z : R) (F : R * list R -> list R)
  (cols : list (R * list R)) (cells : list R) :
  column_at z cols = Some cells ->
  column_at z (map (fun col => (fst col, F col)) cols) = Some (F (z, cells)).
Proof.
  induction cols as [|[label cs] cols IH]; simpl; [ discriminate | ].
  destruct (Req_dec_T label z) as [-> | _].
  - intros H. injection H as ->. reflexivity.
  - exact IH.
Qed.

Lemma nth_error_backward_from (cols : list (R * list R))
  (prev p cur : R * list R) (i : nat) :
  nth_error (prev :: cols) i = Some p ->
  nth_error (prev :: cols) (S i) = Some cur ->
  nth_error (backward_from prev cols) i = Some (backward_column p cur).
Proof.
  revert prev i. induction cols as [|c cols IH]; intros prev i Hp Hc.
  - destruct i; discriminate.
  - destruct i as [|i].
    + simpl in Hp, Hc. injection Hp as <-. injection Hc as <-. reflexivity.
    + simpl. apply IH; assumption.
Qed.

Lemma nth_error_uneven_last (rest : list (R * list R))
  (prev cur p q : R * list R) (i : nat) :
  nth_error (prev :: cur :: rest) i = Some p ->
  nth_error (prev :: cur :: rest) (S i) = Some q ->
  S (S i) = List.length (prev :: cur :: rest) ->
  nth_error (uneven_from prev cur rest) i = Some (backward_column p q).
Proof.
  revert prev cur i. induction rest as [|next rest IH];
    intros prev cur i Hp Hq Hlen.
  - simpl in Hlen. assert (i = 0)%nat by lia. subst i.
    simpl in Hp, Hq. injection Hp as <-. injection Hq as <-. reflexivity.
  - destruct i as [|i]; [ simpl in Hlen; lia | ].
    simpl. apply IH.
    + exact Hp.
    + exact Hq.
    + simpl in Hlen |- *. lia.
Qed.

End ConstructionsFacts.

Import Constructions.

Open Scope string_scope.

Lemma string_app_assoc (s t u : string) : (s ++ t) ++ u = s ++ (t ++ u).
Proof.
  induction s as [|ch s IH]; simpl; [ reflexivity | ]. now rewrite IH.
Qed.

(** C6 (Unknown differencing method).  For every method name other than
    "uneven" and "backward", [get_gradient] fails with a
    [NotImplementedError] whose message names the method given and the
    two allowed methods. *)
Theorem get_gradient_unknown_method (data : LevelTable) (method : string) :
  method <> "uneven" -> method <> "backward" ->
  exists msg : string,
    get_gradient data method = Raises (NotImplementedError msg) /\
    msg = "'" ++ method
          ++ "' is not an implemented differencing scheme. "
          ++ "Use 'uneven' or 'backward'." /\
    contains msg method /\
    contains msg "'uneven'" /\
    contains msg "'backward'".
Proof.
  intros Hu Hb. apply String.eqb_neq in Hu, Hb.
  unfold get_gradient. rewrite Hu, Hb.
  eexists. split; [ reflexivity | ]. split; [ reflexivity | ].
  repeat split.
  - exists "'", "' is not an implemented differencing scheme. Use 'uneven' or 'backward'.".
    reflexivity.
  - exists ("'" ++ method ++ "' is not an implemented differencing scheme. Use "),
      " or 'backward'.".
    simpl. f_equal. rewrite string_app_assoc. reflexivity.
  - exists ("'" ++ method
            ++ "' is not an implemented differencing scheme. Use 'uneven' or "),
      ".".
    simpl. f_equal. rewrite string_app_assoc. reflexivity.
Qed.

Lemma get_gradient_unknown_method_witness :
  exists msg : string,
    get_gradient {| index := [1%Z]; columns := [(0%R, [280%R])] |}
      "missing scheme"
    = Raises (NotImplementedError msg) /\
    contains msg "missing scheme".
Proof.
  destruct (get_gradient_unknown_method
              {| index := [1%Z]; columns := [(0%R, [280%R])] |}
              "missing scheme" ltac:(discriminate) ltac:(discriminate))
    as (msg & Hg & _ & Hm & _).
  exists msg. split; [ exact Hg | exact Hm ].
Defined.

Close Scope string_scope.

(** C7 (Boundary columns of the gradient).  With the method "backward"
    the first column of the gradient is zero on every row and every
    later column is the difference from the previous column over the
    spacing of their height labels; with "uneven" the first column is
    zero too and the last column is that same backward difference. *)
Theorem get_gradient_boundaries (data : LevelTable) :
  exists gb gu : LevelTable,
    get_gradient data "backward" = Returns gb /\
    get_gradient data "uneven" = Returns gu /\
    (forall first : R * list R,
       nth_error (columns data) 0 = Some first ->
       nth_error (columns gb) 0
       = Some (fst first, map (fun _ => 0) (snd first)) /\
       nth_error (columns gu) 0
       = Some (fst first, map (fun _ => 0) (snd first))) /\
    (forall (i : nat) (prev cur : R * list R),
       nth_error (columns data) i = Some prev ->
       nth_error (columns data) (S i) = Some cur ->
       nth_error (columns gb) (S i)
       = Some (fst cur,
               zip_with (fun a b => (b - a) / (fst cur - fst prev))
                 (snd prev) (snd cur))) /\
    (forall (i : nat) (prev cur : R * list R),
       nth_error (columns data) i = Some prev ->
       nth_error (columns data) (S i) = Some cur ->
       S (S i) = List.length (columns data) ->
       nth_error (columns gu) (S i)
       = Some (fst cur,
               zip_with (fun a b => (b - a) / (fst cur - fst prev))
                 (snd prev) (snd cur))).
Proof.
  exists (backward_differencing data), (non_uniform_differencing data).
  split; [ reflexivity | ]. split; [ reflexivity | ].
  unfold backward_differencing, non_uniform_differencing. cbn [columns].
  destruct (columns data) as [|first rest].
  - split; [ | split ]; intros; discriminate.
  - split; [ | split ].
    + intros f Hf. simpl in Hf. injection Hf as <-.
      split; [ reflexivity | destruct rest; reflexivity ].
    + intros i prev cur Hp Hc. cbn [nth_error].
      apply (ConstructionsFacts.nth_error_backward_from rest first prev cur i
               Hp Hc).
    + intros i prev cur Hp Hc Hlen.
      destruct rest as [|second rest]; [ destruct i; discriminate | ].
      cbn [nth_error].
      apply (ConstructionsFacts.nth_error_uneven_last rest first second
               prev cur i Hp Hc Hlen).
Qed.

Lemma get_gradient_boundaries_witness :
  exists gb gu : LevelTable,
    get_gradient
      {| index := [1%Z; 2%Z];
         columns := [(0, [280; 281]); (10, [282; 284]); (30, [286; 288])] |}
      "backward" = Returns gb /\
    get_gradient
      {| index := [1%Z; 2%Z];
         columns := [(0, [280; 281]); (10, [282; 284]); (30, [286; 288])] |}
      "uneven" = Returns gu /\
    nth_error (columns gb) 0 = Some (0, [0; 0]) /\
    nth_error (columns gb) 1
    = Some (10, [(282 - 280) / (10 - 0); (284 - 281) / (10 - 0)]) /\
    nth_error (columns gu) 2
    = Some (30, [(286 - 282) / (30 - 10); (288 - 284) / (30 - 10)]).
Proof.
  destruct (get_gradient_boundaries
              {| index := [1%Z; 2%Z];
                 columns :=
                   [(0, [280; 281]); (10, [282; 284]); (30, [286; 288])] |})
    as (gb & gu & Hb & Hu & H0 & Hback & Hlast).
  exists gb, gu.
  split; [ exact Hb | ]. split; [ exact Hu | ].
  split; [ | split ].
  - exact (proj1 (H0 (0, [280; 281]) eq_refl)).
  - exact (Hback 0%nat (0, [280; 281]) (10, [282; 284]) eq_refl eq_refl).
  - exact (Hlast 1%nat (10, [282; 284]) (30, [286; 288])
             eq_refl eq_refl eq_refl).
Defined.

(** C8 (Extrapolated air pressure).  The result has the temporal index
    of the temperature table and one column per height level of it; the
    column of level 0 is the surface pressure; for positive pressures
    and temperatures the column of every level above 0 is strictly below
    the surface pressure, row by row. *)
Theorem extrapolate_air_pressure_levels (c : AtmosConstants)
  (surface_pressure : Series) (temperature : LevelTable) :
  let out := extrapolate_air_pressure c surface_pressure temperature in
  index out = index temperature /\
  map fst (columns out) = map fst (columns temperature) /\
  (forall T : list R,
     column_at 0 (columns temperature) = Some T ->
     List.length T = List.length (s_values surface_pressure) ->
     column_at 0 (columns out) = Some (s_values surface_pressure)) /\
  (forall (z : R) (T : list R),
     0 < z ->
     column_at z (columns temperature) = Some T ->
     List.length T = List.length (s_values surface_pressure) ->
     0 < r_dry c -> g c <> 0 ->
     Forall (fun p => 0 < p) (s_values surface_pressure) ->
     Forall (fun t => 0 < t) T ->
     exists P : list R,
       column_at z (columns out) = Some P /\
       Forall2 Rlt P (s_values surface_pressure)).
Proof.
  intros out. unfold out, extrapolate_air_pressure. cbn [index columns].
  split; [ reflexivity | ].
  split; [ rewrite map_map; reflexivity | ].
  split.
  - intros T HT Hlen.
    rewrite (ConstructionsFacts.column_at_label 0
               (fun col =>
                  zip_with (fun p t => get_air_pressure c p t (fst col) 0)
                    (s_values surface_pressure) (snd col)) _ T HT).
    cbn [fst snd]. f_equal.
    apply ConstructionsFacts.zip_with_left; [ | symmetry; exact Hlen ].
    intros p t. apply ConstructionsFacts.get_air_pressure_ref.
  - intros z T Hz HT Hlen Hr Hg Hp Ht.
    rewrite (ConstructionsFacts.column_at_label z
               (fun col =>
                  zip_with (fun p t => get_air_pressure c p t (fst col) 0)
                    (s_values surface_pressure) (snd col)) _ T HT).
    cbn [fst snd]. eexists. split; [ reflexivity | ].
    clear HT. revert T Hlen Ht.
    induction Hp as [|p ps Hp0 Hps IH]; intros [|t T] Hlen Ht;
      try discriminate; unfold zip_with; cbn [combine map fst snd].
    + constructor.
    + inversion Ht as [|t' T' Ht0 HT']; subst.
      constructor.
      * apply ConstructionsFacts.get_air_pressure_lt; assumption.
      * apply IH; [ simpl in Hlen; lia | exact HT' ].
Qed.

Lemma extrapolate_air_pressure_levels_witness :
  exists P : list R,
    column_at 10
      (columns
         (extrapolate_air_pressure
            {| r_dry := 287; r_vapour := 461.5; g := -9.81; cp := 1004;
               ref_pressure := 100000 |}
            {| s_index := [1%Z; 2%Z]; s_values := [95000; 95100] |}
            {| index := [1%Z; 2%Z];
               columns := [(0, [283; 284]); (10, [282; 283])] |}))
    = Some P /\
    Forall2 Rlt P [95000; 95100].
Proof.
  apply (proj2 (proj2 (proj2
    (extrapolate_air_pressure_levels
       {| r_dry := 287; r_vapour := 461.5; g := -9.81; cp := 1004;
          ref_pressure := 100000 |}
       {| s_index := [1%Z; 2%Z]; s_values := [95000; 95100] |}
       {| index := [1%Z; 2%Z];
          columns := [(0, [283; 284]); (10, [282; 283])] |})))
    10 [282; 283]).
  - lra.
  - cbn [columns column_at].
    destruct (Req_dec_T 0 10) as [E | _]; [ lra | ].
    destruct (Req_dec_T 10 10) as [_ | E]; [ reflexivity | lra ].
  - reflexivity.
  - cbn [r_dry]. lra.
  - cbn [g]. lra.
  - cbn [s_values]. repeat constructor; lra.
  - repeat constructor; lra.
Defined.

(** C9 (Reduced pressure).  [reduced_pressure] is the station pressure
    times [exp(elevation / (alpha * Tv))] with [alpha = r_dry / |g|];
    for [r_dry = 287] and [g = -9.81], [alpha] is [287 / 9.81], within
    0.01 of 29.26; at the elevation 0 the station pressure is returned
    unchanged, on a cell and on tables of the same shape. *)
Theorem reduced_pressure_hypsometric (c : AtmosConstants)
  (station_pressure virtual_temperature elevation : R) :
  reduced_pressure c station_pressure virtual_temperature elevation
  = station_pressure
    * exp (elevation / (r_dry c / Rabs (g c) * virtual_temperature)) /\
  (r_dry c = 287 -> g c = -9.81 ->
   alpha c = 287 / 9.81 /\ Rabs (alpha c - 29.26) < 0.01) /\
  reduced_pressure c station_pressure virtual_temperature 0
  = station_pressure /\
  (forall p tv : LevelTable,
     Forall2 (fun cp ct => List.length (snd cp) = List.length (snd ct))
       (columns p) (columns tv) ->
     get_reduced_pressure c p tv 0 = p).
Proof.
  split; [ reflexivity | ]. split.
  - intros Hr Hg. unfold alpha. rewrite Hr, Hg.
    replace (Rabs (-9.81)) with 9.81
      by (rewrite Rabs_left; lra).
    split; [ reflexivity | ].
    apply Rabs_def1.
    + apply Rmult_lt_reg_r with (r := 9.81); [ lra | ].
      unfold Rdiv, Rminus. rewrite Rmult_plus_distr_r, Rmult_assoc.
      rewrite Rinv_l by lra. lra.
    + apply Rmult_lt_reg_r with (r := 9.81); [ lra | ].
      unfold Rdiv, Rminus. rewrite Rmult_plus_distr_r, Rmult_assoc.
      rewrite Rinv_l by lra. lra.
  - split; [ apply ConstructionsFacts.reduced_pressure_0 | ].
    intros [pi pc] [ti tc] Hshape. unfold get_reduced_pressure.
    cbn [index columns] in *. f_equal.
    induction Hshape as [|[zp cellp] [zt cellt] pc' tc' Hlen Hrest IH];
      [ reflexivity | ].
    unfold zip_with in *. cbn [combine map fst snd] in *.
    rewrite IH. f_equal. f_equal.
    apply (ConstructionsFacts.zip_with_left
             (fun pcell tcell => reduced_pressure c pcell tcell 0)).
    + intros x y. apply ConstructionsFacts.reduced_pressure_0.
    + exact Hlen.
Qed.

Lemma reduced_pressure_hypsometric_witness :
  alpha {| r_dry := 287; r_vapour := 461.5; g := -9.81; cp := 1004;
           ref_pressure := 100000 |} = 287 / 9.81 /\
  get_reduced_pressure
    {| r_dry := 287; r_vapour := 461.5; g := -9.81; cp := 1004;
       ref_pressure := 100000 |}
    {| index := [1%Z; 2%Z]; columns := [(10, [95000; 95100])] |}
    {| index := [1%Z; 2%Z]; columns := [(10, [283; 284])] |} 0
  = {| index := [1%Z; 2%Z]; columns := [(10, [95000; 95100])] |}.
Proof.
  split.
  - apply (proj1 (proj2
      (reduced_pressure_hypsometric
         {| r_dry := 287; r_vapour := 461.5; g := -9.81; cp := 1004;
            ref_pressure := 100000 |} 95000 283 600)));
      reflexivity.
  - apply (proj2 (proj2 (proj2
      (reduced_pressure_hypsometric
         {| r_dry := 287; r_vapour := 461.5; g := -9.81; cp := 1004;
            ref_pressure := 100000 |} 95000 283 600)))).
    repeat constructor.
Defined.

(** * Further properties of [transects.py] *)

(** ** The weights along the whole path *)

Lemma kernel_variable_bound (x : R) :
  0 <= x <= 1 -> 0 <= Rsqr (2.283 * PI * (x - 0.5) / 2) <= 3.3.
Proof.
  intros Hx. split; [ apply Rle_0_sqr | ].
  assert (Hpi := PI_RGT_0). assert (Hup := BesselFacts.PI_upper).
  set (y := PI * (x - 0.5)).
  assert (Hy : -1.57105 <= y <= 1.57105) by (unfold y; split; nra).
  replace (2.283 * PI * (x - 0.5) / 2) with (2.283 / 2 * y)
    by (unfold y; field).
  unfold Rsqr. nra.
Qed.

Lemma bessel_second_unit (x : R) :
  0 <= x <= 1 -> 0 < bessel_second x <= 1.
Proof.
  intros Hx. rewrite bessel_second_series.
  destruct (kernel_variable_bound x Hx) as [Ht0 Ht].
  set (t := Rsqr (2.283 * PI * (x - 0.5) / 2)) in *.
  split.
  - apply Rlt_le_trans with (2 := BesselFacts.series_lower3 t ltac:(lra)).
    assert (HQ : 0 < t * t - 8.7 * t + 43.29) by nra.
    assert (Hprod : 0 <= (3.3 - t) * (t * t - 8.7 * t + 43.29))
      by (apply Rmult_le_pos; lra).
    nra.
  - apply BesselFacts.series_upper. lra.
Qed.

Lemma pathWeight_unit (x : R) :
  0 <= x <= 1 -> 0 < Spec.pathWeight x <= 2.163.
Proof.
  intros Hx. unfold Spec.pathWeight.
  destruct (bessel_second_unit x Hx). lra.
Qed.

(** X1 (Weights on the path).  For coordinates in [0, 1],
    [path_weighting] returns one weight per coordinate, each strictly
    positive and at most 2.163, the weight of the centre. *)
Theorem path_weighting_bounds (path_coordinates : list R) :
  Forall (fun x => 0 <= x <= 1) path_coordinates ->
  List.length (path_weighting path_coordinates)
  = List.length path_coordinates /\
  Forall (fun w => 0 < w <= 2.163) (path_weighting path_coordinates) /\
  path_weighting [0.5] = [2.163].
Proof.
  intros Hx. split; [ apply path_weighting_length | ]. split.
  - rewrite path_weighting_map. apply Forall_forall. intros w Hin.
    apply in_map_iff in Hin. destruct Hin as [x [<- Hin]].
    apply (pathWeight_unit x). now apply (proj1 (Forall_forall _ _) Hx).
  - exact path_weighting_centre.
Qed.

Lemma path_weighting_bounds_witness :
  Forall (fun w => 0 < w <= 2.163) (path_weighting [0; 0.3; 1]).
Proof.
  apply (proj1 (proj2 (path_weighting_bounds [0; 0.3; 1]
                         ltac:(repeat constructor; lra)))).
Defined.



(** ** Sums over the rows of a transect *)

Lemma trapz_R_map_le {A : Type} (F G : A -> R) (l : list A) :
  (forall a, In a l -> F a <= G a) ->
  trapz_R (map F l) <= trapz_R (map G l).
Proof.
  induction l as [|a0 [|a1 l] IH]; intros H; try (simpl; lra).
  change (map F (a0 :: a1 :: l)) with (F a0 :: map F (a1 :: l)).
  change (map G (a0 :: a1 :: l)) with (G a0 :: map G (a1 :: l)).
  assert (IH' : trapz_R (map F (a1 :: l)) <= trapz_R (map G (a1 :: l))).
  { apply IH. intros a Ha. apply H. now right. }
  assert (H0 := H a0 (or_introl eq_refl)).
  assert (H1 := H a1 (or_intror (or_introl eq_refl))).
  cbn [map trapz_R] in *. lra.
Qed.

Lemma trapz_R_map_pos {A : Type} (F : A -> R) (l : list A) :
  (2 <= List.length l)%nat ->
  (forall a, In a l -> 0 < F a) ->
  0 < trapz_R (map F l).
Proof.
  induction l as [|a0 [|a1 l] IH]; intros Hlen H;
    try (simpl in Hlen; lia).
  assert (H0 := H a0 (or_introl eq_refl)).
  assert (H1 := H a1 (or_intror (or_introl eq_refl))).
  destruct l as [|a2 l].
  - cbn [map trapz_R]. lra.
  - assert (IH' : 0 < trapz_R (map F (a1 :: a2 :: l))).
    { apply IH; [ simpl; lia | ]. intros a Ha. apply H. now right. }
    change (map F (a0 :: a1 :: a2 :: l))
      with (F a0 :: map F (a1 :: a2 :: l)).
    cbn [map trapz_R] in *. lra.
Qed.

Lemma trapz_R_map_linear {A : Type} (alpha beta : R) (F G : A -> R)
  (l : list A) :
  trapz_R (map (fun a => alpha * F a + beta * G a) l)
  = alpha * trapz_R (map F l) + beta * trapz_R (map G l).
Proof.
  induction l as [|a0 [|a1 l] IH]; try (simpl; ring).
  change (map ?f (a0 :: a1 :: l)) with (f a0 :: map f (a1 :: l)) in *.
  cbn [trapz_R map] in *. rewrite IH. field.
Qed.

Lemma zip_with_rows {A B C : Type} (f : A -> B -> C) (t : list (A * B)) :
  zip_with f (map fst t) (map snd t) = map (fun r => f (fst r) (snd r)) t.
Proof.
  unfold zip_with. induction t as [|[a b] t IH]; [ reflexivity | ].
  cbn [map combine fst snd]. now rewrite IH.
Qed.

Lemma regular_heights (t : list (R * R)) :
  regular t -> Forall (fun h => 0 < h) (map fst t).
Proof.
  intros [_ H]. apply Forall_forall. intros h Hin.
  apply in_map_iff in Hin. destruct Hin as [r [<- Hr]].
  exact (proj1 (proj1 (Forall_forall _ _) H r Hr)).
Qed.

Lemma weight_sum_pos (t : list (R * R)) : regular t -> 0 < weight_sum t.
Proof.
  intros [Hlen H]. apply trapz_R_map_pos; [ exact Hlen | ].
  intros r Hr. apply pathWeight_unit.
  exact (proj2 (proj1 (Forall_forall _ _) H r Hr)).
Qed.

Lemma power_sum_pos (b : R) (t : list (R * R)) :
  regular t -> 0 < power_sum b t.
Proof.
  intros [Hlen H]. apply trapz_R_map_pos; [ exact Hlen | ].
  intros r Hr. apply Rmult_lt_0_compat; [ apply exp_pos | ].
  apply pathWeight_unit.
  exact (proj2 (proj1 (Forall_forall _ _) H r Hr)).
Qed.

(** The result on a regular transect. *)
Lemma compute_effective_z_regular (t : list (R * R))
  (stability : option string) (out : list string) (b : R) :
  define_stability stability = (out, Returns b) ->
  regular t ->
  compute_effective_z (map Fin (map fst t)) (map snd t) stability
  = (out, Returns (Fin (Rpower (power_sum b t / weight_sum t) (1 / b)))).
Proof.
  intros Hb Hreg.
  assert (HD := weight_sum_pos t Hreg).
  assert (HN := power_sum_pos b t Hreg).
  pose proof (compute_effective_z_finite (map fst t) (map snd t) stability
                out b Hb) as H.
  cbv zeta in H. rewrite zip_with_rows, map_map in H.
  apply H.
  - now rewrite !length_map.
  - now apply regular_heights.
  - fold (weight_sum t). lra.
  - fold (weight_sum t). fold (power_sum b t).
    apply Rdiv_lt_0_compat; assumption.
Qed.

Lemma Rpower_antitone (a b c : R) :
  c <= 0 -> 0 < a <= b -> Rpower b c <= Rpower a c.
Proof.
  intros Hc [Ha Hab]. unfold Rpower.
  assert (Hln : ln a <= ln b).
  { destruct Hab as [Hlt | ->]; [ left; now apply ln_increasing | lra ]. }
  assert (Hle : c * ln b <= c * ln a) by nra.
  destruct Hle as [Hlt | ->]; [ left; now apply exp_increasing | lra ].
Qed.

Lemma Rpower_inverse (x b : R) :
  0 < x -> b <> 0 -> Rpower (Rpower x b) (1 / b) = x.
Proof.
  intros Hx Hb. rewrite Rpower_mult.
  replace (b * (1 / b)) with 1 by (field; exact Hb).
  now apply Rpower_1.
Qed.

Lemma trapz_R_map_scale {A : Type} (c : R) (F : A -> R) (l : list A) :
  trapz_R (map (fun a => c * F a) l) = c * trapz_R (map F l).
Proof. rewrite <- trapz_R_scale, map_map. reflexivity. Qed.

(** Bounds on the powers of the heights carry over to the quotient of
    the sums. *)
Lemma quotient_between (b lower upper : R) (t : list (R * R)) :
  regular t ->
  (forall r, In r t -> lower <= Rpower (fst r) b <= upper) ->
  lower <= power_sum b t / weight_sum t <= upper.
Proof.
  intros Hreg H.
  assert (HD := weight_sum_pos t Hreg).
  assert (Hw : forall r, In r t -> 0 < Spec.pathWeight (snd r)).
  { intros r Hr. apply pathWeight_unit.
    exact (proj2 (proj1 (Forall_forall _ _) (proj2 Hreg) r Hr)). }
  assert (Hlow : lower * weight_sum t <= power_sum b t).
  { unfold weight_sum, power_sum. rewrite <- trapz_R_map_scale.
    apply trapz_R_map_le. intros r Hr.
    apply Rmult_le_compat_r; [ left; now apply Hw | apply (H r Hr) ]. }
  assert (Hup : power_sum b t <= upper * weight_sum t).
  { unfold weight_sum, power_sum.
    rewrite <- (trapz_R_map_scale upper).
    apply trapz_R_map_le. intros r Hr.
    apply Rmult_le_compat_r; [ left; now apply Hw | apply (H r Hr) ]. }
  assert (Hq : power_sum b t / weight_sum t * weight_sum t = power_sum b t)
    by (field; lra).
  split; apply Rmult_le_reg_r with (r := weight_sum t); lra.
Qed.

(** ** The effective height of a regular transect *)

(** X3 (Between the lowest and the highest point).  On a transect of
    at least two rows with positions in [0, 1] and heights between
    [lo > 0] and [hi], [compute_effective_z] returns, for every
    recognised stability, a finite height between [lo] and [hi]. *)
Theorem effective_height_between (t : list (R * R))
  (stability : option string) (out : list string) (b lo hi : R) :
  define_stability stability = (out, Returns b) ->
  regular t ->
  0 < lo ->
  Forall (fun r => lo <= fst r <= hi) t ->
  exists z : R,
    compute_effective_z (map Fin (map fst t)) (map snd t) stability
    = (out, Returns (Fin z)) /\
    lo <= z <= hi.
Proof.
  intros Hb Hreg Hlo Hrange.
  assert (Hb0 := define_stability_nonzero _ _ _ Hb).
  rewrite (compute_effective_z_regular t stability out b Hb Hreg).
  eexists. split; [ reflexivity | ].
  assert (HD := weight_sum_pos t Hreg).
  assert (HN := power_sum_pos b t Hreg).
  assert (Hq : 0 < power_sum b t / weight_sum t)
    by (apply Rdiv_lt_0_compat; assumption).
  assert (Hhi : lo <= hi).
  { destruct Hreg as [Hlen _]. destruct t as [|r t]; [ simpl in Hlen; lia | ].
    inversion Hrange; subst. lra. }
  assert (Hin : forall r, In r t -> lo <= fst r <= hi)
    by (apply Forall_forall; exact Hrange).
  destruct (Rlt_le_dec 0 b) as [Hpos | Hneg].
  - assert (Hbetween := quotient_between b (Rpower lo b) (Rpower hi b) t Hreg).
    destruct Hbetween as [Hl Hu].
    { intros r Hr. destruct (Hin r Hr).
      split; apply Rle_Rpower_l; lra. }
    assert (Hinv : 0 <= 1 / b).
    { left. apply Rdiv_lt_0_compat; lra. }
    split.
    + rewrite <- (Rpower_inverse lo b Hlo Hb0) at 1.
      apply Rle_Rpower_l; [ exact Hinv | ].
      split; [ apply exp_pos | exact Hl ].
    + rewrite <- (Rpower_inverse hi b ltac:(lra) Hb0).
      apply Rle_Rpower_l; [ exact Hinv | ].
      split; [ exact Hq | exact Hu ].
  - assert (Hb' : b < 0) by lra.
    assert (Hbetween := quotient_between b (Rpower hi b) (Rpower lo b) t Hreg).
    destruct Hbetween as [Hl Hu].
    { intros r Hr. destruct (Hin r Hr).
      split; apply Rpower_antitone; lra. }
    assert (Hinv : 1 / b <= 0).
    { left. unfold Rdiv. rewrite Rmult_1_l. now apply Rinv_lt_0_compat. }
    split.
    + rewrite <- (Rpower_inverse lo b Hlo Hb0) at 1.
      apply Rpower_antitone; [ exact Hinv | ].
      split; [ exact Hq | exact Hu ].
    + rewrite <- (Rpower_inverse hi b ltac:(lra) Hb0).
      apply Rpower_antitone; [ exact Hinv | ].
      split; [ apply exp_pos | exact Hl ].
Qed.

Lemma effective_height_between_witness :
  exists z : R,
    compute_effective_z [Fin 12; Fin 30; Fin 18] [0; 0.4; 1]
      (Some "unstable"%string)
    = ([], Returns (Fin z)) /\
    12 <= z <= 30.
Proof.
  apply (effective_height_between [(12, 0); (30, 0.4); (18, 1)]
           (Some "unstable"%string) [] (-4 / 3) 12 30).
  - reflexivity.
  - split; [ simpl; lia | repeat constructor; simpl; lra ].
  - lra.
  - repeat constructor; simpl; lra.
Defined.

Lemma scale_heights_regular (c : R) (t : list (R * R)) :
  0 < c -> regular t -> regular (scale_heights c t).
Proof.
  intros Hc [Hlen H]. split.
  - unfold scale_heights. now rewrite length_map.
  - apply Forall_forall. intros r Hin. unfold scale_heights in Hin.
    apply in_map_iff in Hin. destruct Hin as [r0 [<- Hr0]].
    destruct (proj1 (Forall_forall _ _) H r0 Hr0) as [Hh Hx].
    cbn [fst snd]. split; [ now apply Rmult_lt_0_compat | exact Hx ].
Qed.

Lemma scale_heights_sums (b c : R) (t : list (R * R)) :
  0 < c -> regular t ->
  power_sum b (scale_heights c t) = Rpower c b * power_sum b t /\
  weight_sum (scale_heights c t) = weight_sum t.
Proof.
  intros Hc [_ H]. unfold power_sum, weight_sum, scale_heights.
  rewrite !map_map. cbn [fst snd]. split; [ | reflexivity ].
  rewrite <- trapz_R_map_scale. f_equal. apply map_ext_in. intros r Hr.
  destruct (proj1 (Forall_forall _ _) H r Hr) as [Hh _].
  rewrite <- (Rpower_mult_distr c (fst r) b Hc Hh). ring.
Qed.

(** X4 (Change of unit).  Multiplying every height of a regular
    transect by [c > 0] multiplies the effective height by [c], for
    every recognised stability. *)
Theorem effective_height_scales (t : list (R * R))
  (stability : option string) (out : list string) (b c : R) :
  define_stability stability = (out, Returns b) ->
  regular t ->
  0 < c ->
  exists z : R,
    compute_effective_z (map Fin (map fst t)) (map snd t) stability
    = (out, Returns (Fin z)) /\
    compute_effective_z (map Fin (map fst (scale_heights c t)))
      (map snd (scale_heights c t)) stability
    = (out, Returns (Fin (c * z))).
Proof.
  intros Hb Hreg Hc.
  assert (Hb0 := define_stability_nonzero _ _ _ Hb).
  assert (Hreg' := scale_heights_regular c t Hc Hreg).
  rewrite (compute_effective_z_regular t stability out b Hb Hreg).
  rewrite (compute_effective_z_regular _ stability out b Hb Hreg').
  destruct (scale_heights_sums b c t Hc Hreg) as [-> ->].
  eexists. split; [ reflexivity | ]. do 3 f_equal.
  assert (HD := weight_sum_pos t Hreg).
  assert (HN := power_sum_pos b t Hreg).
  replace (Rpower c b * power_sum b t / weight_sum t)
    with (Rpower c b * (power_sum b t / weight_sum t)) by (field; lra).
  rewrite <- Rpower_mult_distr;
    [ | apply exp_pos | apply Rdiv_lt_0_compat; assumption ].
  now rewrite (Rpower_inverse c b Hc Hb0).
Qed.

Lemma effective_height_scales_witness :
  exists z : R,
    compute_effective_z [Fin 12; Fin 30; Fin 18] [0; 0.4; 1]
      (Some "stable"%string)
    = ([], Returns (Fin z)) /\
    compute_effective_z [Fin (100 * 12); Fin (100 * 30); Fin (100 * 18)]
      [0; 0.4; 1] (Some "stable"%string)
    = ([], Returns (Fin (100 * z))).
Proof.
  apply (effective_height_scales [(12, 0); (30, 0.4); (18, 1)]
           (Some "stable"%string) [] (-2 / 3) 100).
  - reflexivity.
  - split; [ simpl; lia | repeat constructor; simpl; lra ].
  - lra.
Defined.

(** ** The order of the stability regimes *)

Lemma ln_le_minus_1 (u : R) : 0 < u -> ln u <= u - 1.
Proof.
  intros Hu. assert (H := exp_ineq1_le (u - 1)).
  replace (1 + (u - 1)) with u in H by ring.
  rewrite <- (ln_exp (u - 1)).
  destruct H as [Hlt | Heq]; [ left; now apply ln_increasing | ].
  rewrite <- Heq. lra.
Qed.

(** The graph of a power of non-positive exponent lies above its
    tangent at [m]. *)
Lemma Rpower_tangent (b h m : R) :
  b <= 0 -> 0 < h -> 0 < m ->
  Rpower m b * (1 + b * (h / m - 1)) <= Rpower h b.
Proof.
  intros Hb Hh Hm.
  assert (Hu : 0 < h / m) by (apply Rdiv_lt_0_compat; assumption).
  replace (Rpower h b) with (Rpower m b * Rpower (h / m) b).
  2:{ rewrite Rpower_mult_distr by assumption. f_equal. field. lra. }
  apply Rmult_le_compat_l; [ left; apply exp_pos | ].
  unfold Rpower at 1.
  apply Rle_trans with (2 := exp_ineq1_le (b * ln (h / m))).
  assert (Hln := ln_le_minus_1 (h / m) Hu). nra.
Qed.

(** Jensen's inequality for a power of negative exponent: the power of
    the weighted mean is at most the weighted mean of the powers. *)
Lemma quotient_above_power_of_mean (b : R) (t : list (R * R)) :
  regular t -> b <= 0 ->
  Rpower (power_sum 1 t / weight_sum t) b <= power_sum b t / weight_sum t.
Proof.
  intros Hreg Hb.
  assert (HD := weight_sum_pos t Hreg).
  assert (HN := power_sum_pos 1 t Hreg).
  set (m := power_sum 1 t / weight_sum t).
  assert (Hm : 0 < m) by (apply Rdiv_lt_0_compat; assumption).
  assert (Hin : forall r, In r t -> 0 < fst r /\ 0 < Spec.pathWeight (snd r)).
  { intros r Hr.
    destruct (proj1 (Forall_forall _ _) (proj2 Hreg) r Hr) as [Hh Hx].
    split; [ exact Hh | now apply pathWeight_unit ]. }
  assert (Hsum :
    Rpower m b * weight_sum t <= power_sum b t).
  { replace (Rpower m b * weight_sum t)
      with (Rpower m b * (1 - b) * weight_sum t
            + Rpower m b * b / m * power_sum 1 t)
      by (unfold m; field; lra).
    unfold weight_sum, power_sum. rewrite <- trapz_R_map_linear.
    apply trapz_R_map_le. intros r Hr. destruct (Hin r Hr) as [Hh Hw].
    rewrite Rpower_1 by exact Hh.
    assert (Ht := Rpower_tangent b (fst r) m Hb Hh Hm).
    apply Rmult_le_compat_r with (r := Spec.pathWeight (snd r)) in Ht;
      [ | lra ].
    replace (Rpower m b * (1 - b) * Spec.pathWeight (snd r)
             + Rpower m b * b / m * (fst r * Spec.pathWeight (snd r)))
      with (Rpower m b * (1 + b * (fst r / m - 1))
            * Spec.pathWeight (snd r))
      by (field; lra).
    exact Ht. }
  apply Rmult_le_reg_r with (r := weight_sum t); [ exact HD | ].
  replace (power_sum b t / weight_sum t * weight_sum t)
    with (power_sum b t) by (field; lra).
  exact Hsum.
Qed.

(** The square of a weighted mean is at most the weighted mean of the
    squares. *)
Lemma quotient_above_square (b : R) (t : list (R * R)) :
  regular t ->
  (power_sum b t / weight_sum t) * (power_sum b t / weight_sum t)
  <= power_sum (b + b) t / weight_sum t.
Proof.
  intros Hreg.
  assert (HD := weight_sum_pos t Hreg).
  set (mu := power_sum b t / weight_sum t).
  assert (Hin : forall r, In r t -> 0 < Spec.pathWeight (snd r)).
  { intros r Hr. apply pathWeight_unit.
    exact (proj2 (proj1 (Forall_forall _ _) (proj2 Hreg) r Hr)). }
  assert (Hsum : mu * mu * weight_sum t <= power_sum (b + b) t).
  { replace (mu * mu * weight_sum t)
      with (- (mu * mu) * weight_sum t + 2 * mu * power_sum b t)
      by (unfold mu; field; lra).
    unfold weight_sum, power_sum. rewrite <- trapz_R_map_linear.
    apply trapz_R_map_le. intros r Hr. assert (Hw := Hin r Hr).
    rewrite Rpower_plus.
    set (y := Rpower (fst r) b). set (w := Spec.pathWeight (snd r)) in *.
    assert (Hsq : 0 <= (y - mu) * (y - mu) * w).
    { apply Rmult_le_pos; [ | lra ].
      replace ((y - mu) * (y - mu)) with (Rsqr (y - mu)) by reflexivity.
      apply Rle_0_sqr. }
    lra. }
  apply Rmult_le_reg_r with (r := weight_sum t); [ exact HD | ].
  replace (power_sum (b + b) t / weight_sum t * weight_sum t)
    with (power_sum (b + b) t) by (field; lra).
  exact Hsum.
Qed.

(** X5 (Order of the regimes).  In exact arithmetic, on a regular
    transect the effective height for "unstable" is at most the one for
    "stable", which is at most the one without stability, the weighted
    mean of the heights.  Rounded powers can break the order by the last
    digits where the three values are equal, as on a constant
    transect. *)
Theorem effective_height_regimes (t : list (R * R)) :
  regular t ->
  exists zu zs zn : R,
    compute_effective_z (map Fin (map fst t)) (map snd t)
      (Some "unstable"%string) = ([], Returns (Fin zu)) /\
    compute_effective_z (map Fin (map fst t)) (map snd t)
      (Some "stable"%string) = ([], Returns (Fin zs)) /\
    compute_effective_z (map Fin (map fst t)) (map snd t) None
    = (["No height dependency selected."%string], Returns (Fin zn)) /\
    zn = power_sum 1 t / weight_sum t /\
    zu <= zs <= zn.
Proof.
  intros Hreg.
  rewrite (compute_effective_z_regular t (Some "unstable"%string) []
             (-4 / 3) eq_refl Hreg).
  rewrite (compute_effective_z_regular t (Some "stable"%string) []
             (-2 / 3) eq_refl Hreg).
  rewrite (compute_effective_z_regular t None
             ["No height dependency selected."%string] 1 eq_refl Hreg).
  assert (HD := weight_sum_pos t Hreg).
  set (m := power_sum 1 t / weight_sum t).
  set (mu := power_sum (-2 / 3) t / weight_sum t).
  assert (Hm : 0 < m)
    by (apply Rdiv_lt_0_compat; [ now apply power_sum_pos | exact HD ]).
  assert (Hmu : 0 < mu)
    by (apply Rdiv_lt_0_compat; [ now apply power_sum_pos | exact HD ]).
  assert (Hzn : Rpower m (1 / 1) = m).
  { replace (1 / 1) with 1 by field. now apply Rpower_1. }
  do 3 eexists. repeat (split; [ reflexivity | ]).
  split; [ exact Hzn | ]. rewrite Hzn. split.
  - (* unstable against stable *)
    assert (Hsq := quotient_above_square (-2 / 3) t Hreg). fold mu in Hsq.
    replace (-2 / 3 + -2 / 3) with (-4 / 3) in Hsq by field.
    apply Rle_trans with (Rpower (mu * mu) (1 / (-4 / 3))).
    + apply Rpower_antitone; [ lra | ].
      split; [ now apply Rmult_lt_0_compat | exact Hsq ].
    + right.
      replace (mu * mu) with (Rpower mu (1 + 1))
        by (rewrite Rpower_plus, Rpower_1 by exact Hmu; reflexivity).
      rewrite Rpower_mult. f_equal. field.
  - (* stable against no stability *)
    assert (Hj := quotient_above_power_of_mean (-2 / 3) t Hreg ltac:(lra)).
    fold m mu in Hj.
    rewrite <- (Rpower_inverse m (-2 / 3) Hm ltac:(lra)).
    apply Rpower_antitone; [ lra | ].
    split; [ apply exp_pos | exact Hj ].
Qed.

Lemma effective_height_regimes_witness :
  exists zu zs zn : R,
    compute_effective_z [Fin 12; Fin 30; Fin 18] [0; 0.4; 1]
      (Some "unstable"%string) = ([], Returns (Fin zu)) /\
    compute_effective_z [Fin 12; Fin 30; Fin 18] [0; 0.4; 1]
      (Some "stable"%string) = ([], Returns (Fin zs)) /\
    compute_effective_z [Fin 12; Fin 30; Fin 18] [0; 0.4; 1] None
    = (["No height dependency selected."%string], Returns (Fin zn)) /\
    zu <= zs <= zn.
Proof.
  destruct (effective_height_regimes [(12, 0); (30, 0.4); (18, 1)])
    as (zu & zs & zn & Hu & Hs & Hn & _ & Hle).
  - split; [ simpl; lia | repeat constructor; simpl; lra ].
  - exists zu, zs, zn. repeat split; try assumption; apply Hle.
Defined.

(** ** Edge cases of [compute_effective_z] *)

Lemma Int_part_1 : Int_part 1 = 1%Z.
Proof. exact (Int_part_INR 1). Qed.

(** The exponent 1 changes no float, finite or not. *)
Lemma fpow_1 (x : pyfloat) : fpow x 1 = x.
Proof.
  unfold fpow, is_odd_integer, is_integer. rewrite Int_part_1.
  destruct (Req_dec_T 1 0) as [E | _]; [ lra | ].
  destruct (Rlt_dec 1 0) as [E | _]; [ lra | ].
  destruct (Req_dec_T 1 1) as [_ | E]; [ | lra ].
  destruct x as [r| | |]; try reflexivity.
  destruct (total_order_T r 0) as [[Hlt | ->] | Hgt].
  - now rewrite powerRZ_1.
  - reflexivity.
  - now rewrite Rpower_1.
Qed.

(** X6 (No stability).  Without a stability the result is the weighted
    mean of the heights as they are, whatever their sign and even when
    some are infinite or NaN: the trapezoidal sum of height times weight,
    with NaN products replaced by 0, over the trapezoidal sum of the
    weights. *)
Theorem effective_height_no_stability (path_heights : list pyfloat)
  (path_positions : list R) (stability : option string) :
  falsy stability = true ->
  List.length path_heights = List.length path_positions ->
  compute_effective_z path_heights path_positions stability
  = (["No height dependency selected."%string],
     Returns
       (fdiv
          (trapz
             (zip_with
                (fun h x =>
                   let w := fmul h (Fin (2.163 * bessel_second x)) in
                   if isnan w then Fin 0 else w)
                path_heights path_positions))
          (trapz (map (fun x => Fin (2.163 * bessel_second x))
                    path_positions)))).
Proof.
  intros Hf Hlen.
  assert (Hd : define_stability stability
               = (["No height dependency selected."%string], Returns 1)).
  { unfold define_stability. rewrite Hf. reflexivity. }
  rewrite (compute_effective_z_returns _ _ _ _ _ Hd Hlen).
  replace (1 / 1) with 1 by field. rewrite fpow_1.
  rewrite path_weighting_map, map_map.
  unfold Spec.weighted, Spec.pathWeight, zip_with.
  do 4 f_equal. apply map_ext. intros [h x]. cbn [fst snd].
  now rewrite fpow_1.
Qed.

Lemma effective_height_no_stability_witness :
  compute_effective_z [Fin (-3); NaN; PInf] [0.2; 0.5; 0.9] (Some ""%string)
  = (["No height dependency selected."%string],
     Returns
       (fdiv
          (trapz
             (zip_with
                (fun h x =>
                   let w := fmul h (Fin (2.163 * bessel_second x)) in
                   if isnan w then Fin 0 else w)
                [Fin (-3); NaN; PInf] [0.2; 0.5; 0.9]))
          (trapz (map (fun x => Fin (2.163 * bessel_second x))
                    [0.2; 0.5; 0.9])))).
Proof.
  apply (effective_height_no_stability [Fin (-3); NaN; PInf]
           [0.2; 0.5; 0.9] (Some ""%string)); reflexivity.
Defined.

Lemma trapz_short (y : list pyfloat) :
  (List.length y <= 1)%nat -> trapz y = Fin 0.
Proof.
  destruct y as [|y0 [|y1 y]]; intros H; try reflexivity.
  simpl in H. lia.
Qed.

(** X7 (Fewer than two points).  A transect of one row, or of none,
    gives NaN for every recognised stability, not an error: both
    trapezoidal sums are 0. *)
Theorem effective_height_short_transect (path_heights : list pyfloat)
  (path_positions : list R) (stability : option string)
  (out : list string) (b : R) :
  define_stability stability = (out, Returns b) ->
  List.length path_heights = List.length path_positions ->
  (List.length path_positions <= 1)%nat ->
  compute_effective_z path_heights path_positions stability
  = (out, Returns NaN).
Proof.
  intros Hb Hlen Hshort.
  assert (Hb0 := define_stability_nonzero _ _ _ Hb).
  rewrite (compute_effective_z_returns _ _ _ _ _ Hb Hlen).
  rewrite !trapz_short.
  - cbn [fdiv]. destruct (Req_dec_T 0 0) as [_ | E]; [ | lra ].
    unfold inf_times.
    destruct (total_order_T 0 0) as [[H | _] | H]; try lra.
    apply f_equal, f_equal, fpow_NaN.
    unfold Rdiv. rewrite Rmult_1_l. now apply Rinv_neq_0_compat.
  - now rewrite length_map, path_weighting_length.
  - rewrite weighted_length by exact Hlen. exact Hshort.
Qed.

Lemma effective_height_short_transect_witness :
  compute_effective_z [Fin 12] [0.5] (Some "stable"%string)
  = ([], Returns NaN)
  /\ compute_effective_z [] [] None
     = (["No height dependency selected."%string], Returns NaN).
Proof.
  split.
  - apply (effective_height_short_transect [Fin 12] [0.5]
             (Some "stable"%string) [] (-2 / 3));
      [ reflexivity | reflexivity | simpl; lia ].
  - apply (effective_height_short_transect [] [] None
             ["No height dependency selected."%string] 1);
      [ reflexivity | reflexivity | simpl; lia ].
Defined.

(** ** Missing heights *)

Lemma weighted_missing (b : R) (t : list (option R * R)) :
  b <> 0 ->
  (forall r h, In r t -> fst r = Some h -> 0 < h) ->
  Spec.weighted b (map (fun r => height_of (fst r)) t) (map snd t)
  = map Fin (map (weighted_term b) t).
Proof.
  intros Hb H. unfold Spec.weighted.
  rewrite (zip_with_map _ (fun r => height_of (fst r)) snd t t).
  unfold zip_with. rewrite map_map.
  induction t as [|[o x] t IH]; [ reflexivity | ].
  cbn [combine map fst snd]. rewrite IH.
  2:{ intros r h Hr. apply H. now right. }
  f_equal. unfold weighted_term. cbn [fst snd].
  destruct o as [h|]; cbn [height_of].
  - rewrite fpow_Fin_pos; [ reflexivity | | exact Hb ].
    apply (H (Some h, x) h); [ now left | reflexivity ].
  - now rewrite fpow_NaN.
Qed.

Lemma trapz_R_map_nonneg {A : Type} (F : A -> R) (l : list A) :
  (forall a, In a l -> 0 <= F a) -> 0 <= trapz_R (map F l).
Proof.
  induction l as [|a0 [|a1 l] IH]; intros H; try (simpl; lra).
  assert (H0 := H a0 (or_introl eq_refl)).
  assert (H1 := H a1 (or_intror (or_introl eq_refl))).
  assert (IH' : 0 <= trapz_R (map F (a1 :: l))).
  { apply IH. intros a Ha. apply H. now right. }
  change (map F (a0 :: a1 :: l)) with (F a0 :: map F (a1 :: l)).
  cbn [map trapz_R] in *. lra.
Qed.

Lemma trapz_R_map_pos_exists {A : Type} (F : A -> R) (l : list A) :
  (2 <= List.length l)%nat ->
  (forall a, In a l -> 0 <= F a) ->
  (exists a, In a l /\ 0 < F a) ->
  0 < trapz_R (map F l).
Proof.
  induction l as [|a0 [|a1 l] IH]; intros Hlen H [a [Ha Hpos]];
    try (simpl in Hlen; lia).
  assert (H0 := H a0 (or_introl eq_refl)).
  assert (H1 := H a1 (or_intror (or_introl eq_refl))).
  assert (Hrest : 0 <= trapz_R (map F (a1 :: l))).
  { apply trapz_R_map_nonneg. intros a' Ha'. apply H. now right. }
  change (map F (a0 :: a1 :: l)) with (F a0 :: map F (a1 :: l)).
  destruct Ha as [<- | [<- | Hin]].
  - cbn [map trapz_R] in *. lra.
  - cbn [map trapz_R] in *. lra.
  - assert (IH' : 0 < trapz_R (map F (a1 :: l))).
    { apply IH.
      - destruct l; [ contradiction | simpl; lia ].
      - intros a' Ha'. apply H. now right.
      - exists a. split; [ now right | exact Hpos ]. }
    cbn [map trapz_R] in *. lra.
Qed.

(** X8 (Missing heights).  In exact arithmetic, on a transect of at
    least two rows with positions in [0, 1] whose heights may be NaN,
    those that are present lying between [lo > 0] and [hi] and at least
    one being present, the effective height is finite and positive; the
    rows without height keep their weight, so that the result is at most
    [hi] without stability and at least [lo] for "stable" and
    "unstable".  Rounding, overflow and underflow of the powers are not
    covered. *)
Theorem effective_height_missing (t : list (option R * R))
  (stability : option string) (out : list string) (b lo hi : R) :
  define_stability stability = (out, Returns b) ->
  (2 <= List.length t)%nat ->
  Forall (fun r => 0 <= snd r <= 1) t ->
  0 < lo ->
  Forall (fun r => forall h, fst r = Some h -> lo <= h <= hi) t ->
  Exists (fun r => fst r <> None) t ->
  exists z : R,
    compute_effective_z (map (fun r => height_of (fst r)) t) (map snd t)
      stability
    = (out, Returns (Fin z)) /\
    0 < z /\ (0 < b -> z <= hi) /\ (b < 0 -> lo <= z).
Proof.
  intros Hb Hlen Hx Hlo Hrange Hsome.
  assert (Hb0 := define_stability_nonzero _ _ _ Hb).
  assert (Hxin : forall r, In r t -> 0 < Spec.pathWeight (snd r)).
  { intros r Hr. apply pathWeight_unit.
    exact (proj1 (Forall_forall _ _) Hx r Hr). }
  assert (Hrin : forall r h, In r t -> fst r = Some h -> lo <= h <= hi).
  { intros r h Hr. exact (proj1 (Forall_forall _ _) Hrange r Hr h). }
  rewrite (compute_effective_z_returns _ _ _ _ _ Hb)
    by (now rewrite !length_map).
  rewrite weighted_missing;
    [ | exact Hb0 | intros r h Hr Hh; destruct (Hrin r h Hr Hh); lra ].
  rewrite path_weighting_map.
  rewrite (map_map snd (fun i => 2.163 * bessel_second i)).
  change (fun x : option R * R => 2.163 * bessel_second (snd x))
    with (fun r : option R * R => Spec.pathWeight (snd r)).
  rewrite !trapz_Fin.
  set (N := trapz_R (map (weighted_term b) t)).
  set (D := trapz_R (map (fun r : option R * R => Spec.pathWeight (snd r)) t)).
  assert (HD : 0 < D) by (apply trapz_R_map_pos; assumption).
  assert (Hterm : forall r, In r t -> 0 <= weighted_term b r).
  { intros r Hr. unfold weighted_term. destruct (fst r); [ | lra ].
    apply Rmult_le_pos; left; [ apply exp_pos | now apply Hxin ]. }
  assert (HN : 0 < N).
  { apply trapz_R_map_pos_exists; [ exact Hlen | exact Hterm | ].
    apply Exists_exists in Hsome. destruct Hsome as [r [Hr Hne]].
    exists r. split; [ exact Hr | ]. unfold weighted_term.
    destruct (fst r); [ | contradiction ].
    apply Rmult_lt_0_compat; [ apply exp_pos | now apply Hxin ]. }
  assert (Hq : 0 < N / D) by (apply Rdiv_lt_0_compat; assumption).
  assert (Hhi : 0 < hi).
  { apply Exists_exists in Hsome. destruct Hsome as [r [Hr Hne]].
    destruct (fst r) as [h|] eqn:E; [ | contradiction ].
    destruct (Hrin r h Hr E). lra. }
  rewrite fdiv_Fin by lra.
  rewrite fpow_Fin_pos;
    [ | exact Hq
      | unfold Rdiv; rewrite Rmult_1_l; now apply Rinv_neq_0_compat ].
  eexists. split; [ reflexivity | ]. split; [ apply exp_pos | ].
  assert (Hbound : forall B : R,
    (forall r h, In r t -> fst r = Some h -> Rpower h b <= B) ->
    0 < B -> N / D <= B).
  { intros B HB HB0.
    apply Rmult_le_reg_r with (r := D); [ exact HD | ].
    replace (N / D * D) with N by (field; lra).
    unfold N, D. rewrite <- (trapz_R_map_scale B).
    apply trapz_R_map_le. intros r Hr. unfold weighted_term.
    assert (Hw := Hxin r Hr).
    destruct (fst r) as [h|] eqn:E.
    - apply Rmult_le_compat_r; [ lra | now apply (HB r h) ].
    - apply Rmult_le_pos; lra. }
  split.
  - intros Hpos.
    rewrite <- (Rpower_inverse hi b Hhi Hb0).
    apply Rle_Rpower_l; [ left; apply Rdiv_lt_0_compat; lra | ].
    split; [ exact Hq | ].
    apply Hbound; [ | apply exp_pos ].
    intros r h Hr Hh. destruct (Hrin r h Hr Hh).
    apply Rle_Rpower_l; lra.
  - intros Hneg.
    rewrite <- (Rpower_inverse lo b Hlo Hb0) at 1.
    apply Rpower_antitone.
    + left. unfold Rdiv. rewrite Rmult_1_l. now apply Rinv_lt_0_compat.
    + split; [ exact Hq | ].
      apply Hbound; [ | apply exp_pos ].
      intros r h Hr Hh. destruct (Hrin r h Hr Hh).
      apply Rpower_antitone; lra.
Qed.

Lemma effective_height_missing_witness :
  exists z : R,
    compute_effective_z [Fin 12; NaN; Fin 18] [0; 0.4; 1]
      (Some "unstable"%string)
    = ([], Returns (Fin z)) /\
    12 <= z.
Proof.
  destruct (effective_height_missing
              [(Some 12, 0); (None, 0.4); (Some 18, 1)]
              (Some "unstable"%string) [] (-4 / 3) 12 18)
    as (z & Hz & _ & _ & Hlow).
  - reflexivity.
  - simpl. lia.
  - repeat constructor; simpl; lra.
  - lra.
  - repeat (apply Forall_cons;
            [ cbn [fst]; intros h Hh; try discriminate;
              injection Hh as <-; lra | ]).
    apply Forall_nil.
  - apply Exists_cons_hd. discriminate.
  - exists z. split; [ exact Hz | apply Hlow; lra ].
Defined.

(** ** A transect that touches the ground *)

Lemma trapz_term_finite_or_pinf (y0 y1 : pyfloat) :
  finite_or_pinf y0 -> finite_or_pinf y1 ->
  finite_or_pinf (fdiv (fmul (Fin 1) (fadd y1 y0)) (Fin 2)) /\
  (y0 = PInf \/ y1 = PInf ->
   fdiv (fmul (Fin 1) (fadd y1 y0)) (Fin 2) = PInf).
Proof.
  rewrite fmul_1_l.
  destruct y0, y1; cbn [finite_or_pinf]; try contradiction; intros _ _;
    cbn [fadd fdiv];
    destruct (Req_dec_T 2 0); destruct (Rlt_dec 2 0); try lra;
    (split; [ exact I | intros [H | H]; try discriminate; reflexivity ]).
Qed.

Lemma fadd_finite_or_pinf (x y : pyfloat) :
  finite_or_pinf x -> finite_or_pinf y ->
  finite_or_pinf (fadd x y) /\
  (x = PInf \/ y = PInf -> fadd x y = PInf).
Proof.
  destruct x, y; cbn [finite_or_pinf]; try contradiction; intros _ _;
    cbn [fadd];
    (split; [ exact I | intros [H | H]; try discriminate; reflexivity ]).
Qed.

Lemma trapz_finite_or_pinf (l : list pyfloat) :
  Forall finite_or_pinf l -> finite_or_pinf (trapz l).
Proof.
  induction l as [|y0 [|y1 l] IH]; intros H; try exact I.
  rewrite trapz_cons.
  inversion H as [|? ? H0 Hrest]; subst.
  inversion Hrest as [|? ? H1 _]; subst.
  apply fadd_finite_or_pinf.
  - now apply trapz_term_finite_or_pinf.
  - now apply IH.
Qed.

(** One infinite sample makes the trapezoidal sum infinite. *)
Lemma trapz_pinf (l : list pyfloat) :
  Forall finite_or_pinf l ->
  (2 <= List.length l)%nat ->
  In PInf l ->
  trapz l = PInf.
Proof.
  induction l as [|y0 [|y1 l] IH]; intros H Hlen Hin;
    try (simpl in Hlen; lia).
  rewrite trapz_cons.
  inversion H as [|? ? H0 Hrest]; subst.
  inversion Hrest as [|? ? H1 _]; subst.
  destruct (trapz_term_finite_or_pinf y0 y1 H0 H1) as [Hterm Hinf].
  assert (Hsum := trapz_finite_or_pinf (y1 :: l) Hrest).
  destruct (fadd_finite_or_pinf _ _ Hterm Hsum) as [_ Hadd].
  apply Hadd.
  destruct Hin as [-> | [-> | Hin]].
  - left. apply Hinf. now left.
  - left. apply Hinf. now right.
  - right. apply IH.
    + exact Hrest.
    + destruct l; [ contradiction | simpl; lia ].
    + now right.
Qed.

(** X9 (Ground contact).  On a transect of at least two rows with
    positions in [0, 1] and heights that are not negative, one height 0
    makes the effective height 0 for "stable" and for "unstable": zero
    to a negative power is [+inf], which is not NaN and is kept. *)
Theorem effective_height_ground_contact (t : list (R * R))
  (stability : option string) (out : list string) (b : R) :
  define_stability stability = (out, Returns b) ->
  b < 0 ->
  (2 <= List.length t)%nat ->
  Forall (fun r => 0 <= fst r /\ 0 <= snd r <= 1) t ->
  Exists (fun r => fst r = 0) t ->
  compute_effective_z (map Fin (map fst t)) (map snd t) stability
  = (out, Returns (Fin 0)).
Proof.
  intros Hb Hneg Hlen Hrows Hzero.
  assert (Hin : forall r, In r t ->
                0 <= fst r /\ 0 < Spec.pathWeight (snd r)).
  { intros r Hr. destruct (proj1 (Forall_forall _ _) Hrows r Hr) as [Hh Hx].
    split; [ exact Hh | now apply pathWeight_unit ]. }
  rewrite (compute_effective_z_returns _ _ _ _ _ Hb)
    by (now rewrite !length_map).
  assert (Hweighted :
    Spec.weighted b (map Fin (map fst t)) (map snd t)
    = map (fun r => if Req_dec_T (fst r) 0 then PInf
                    else Fin (Rpower (fst r) b * Spec.pathWeight (snd r))) t).
  { unfold Spec.weighted. rewrite map_map.
    rewrite (zip_with_map _ (fun r => Fin (fst r)) snd t t).
    unfold zip_with.
    clear Hlen Hrows Hzero.
    induction t as [|[h x] t IH]; [ reflexivity | ].
    cbn [combine map fst snd]. rewrite IH.
    2:{ intros r Hr. apply Hin. now right. }
    f_equal. destruct (Hin (h, x) (or_introl eq_refl)) as [Hh Hw].
    cbn [fst snd] in *.
    destruct (Req_dec_T h 0) as [-> | Hne].
    - rewrite fpow_zero_neg by exact Hneg. cbn [fmul].
      rewrite inf_times_pos by exact Hw. reflexivity.
    - rewrite fpow_Fin_pos by lra. reflexivity. }
  rewrite Hweighted, trapz_pinf.
  - rewrite path_weighting_map.
    rewrite (map_map snd (fun i => 2.163 * bessel_second i)).
    change (fun x : R * R => 2.163 * bessel_second (snd x))
      with (fun r : R * R => Spec.pathWeight (snd r)).
    rewrite trapz_Fin. fold (weight_sum t).
    assert (HD : 0 < weight_sum t).
    { apply trapz_R_map_pos; [ exact Hlen | ].
      intros r Hr. apply (Hin r Hr). }
    cbn [fdiv]. destruct (Rlt_dec (weight_sum t) 0); [ lra | ].
    rewrite fpow_PInf_neg; [ reflexivity | ].
    unfold Rdiv. rewrite Rmult_1_l. now apply Rinv_lt_0_compat.
  - apply Forall_forall. intros y Hy. apply in_map_iff in Hy.
    destruct Hy as [r [<- _]]. now destruct (Req_dec_T (fst r) 0).
  - now rewrite length_map.
  - apply Exists_exists in Hzero. destruct Hzero as [r [Hr Hz]].
    apply in_map_iff. exists r. split; [ | exact Hr ].
    destruct (Req_dec_T (fst r) 0); [ reflexivity | contradiction ].
Qed.

Lemma effective_height_ground_contact_witness :
  compute_effective_z [Fin 12; Fin 0; Fin 18] [0; 0.4; 1]
    (Some "stable"%string)
  = ([], Returns (Fin 0)).
Proof.
  apply (effective_height_ground_contact [(12, 0); (0, 0.4); (18, 1)]
           (Some "stable"%string) [] (-2 / 3)).
  - reflexivity.
  - lra.
  - simpl. lia.
  - repeat constructor; simpl; lra.
  - apply Exists_cons_tl, Exists_cons_hd. reflexivity.
Defined.

(** ** The mean height and the outcomes of [get_z_parameters] *)

Lemma rows_of_heights (t : list (option R * R)) :
  map fst (rows_of t) = map (fun r => height_of (fst r)) t.
Proof. unfold rows_of. rewrite map_map. reflexivity. Qed.

Lemma rows_of_positions (t : list (option R * R)) :
  map snd (rows_of t) = map snd t.
Proof. unfold rows_of. rewrite map_map. reflexivity. Qed.

Lemma count_present (t : list (option R * R)) :
  List.length (filter (fun v => negb (isnan v))
                 (map (fun r => height_of (fst r)) t))
  = List.length (present_heights t).
Proof.
  induction t as [|[[h|] x] t IH]; cbn [map filter fst height_of isnan negb
    present_heights flat_map app List.length] in *;
    [ reflexivity | f_equal; exact IH | exact IH ].
Qed.

Lemma sum_present (t : list (option R * R)) (a : R) :
  fold_left fadd
    (map (fun v => if isnan v then Fin 0 else v)
       (map (fun r => height_of (fst r)) t)) (Fin a)
  = Fin (a + sum_R (present_heights t)).
Proof.
  revert a.
  induction t as [|[[h|] x] t IH]; intros a;
    cbn [map fold_left fst height_of isnan present_heights flat_map app
         sum_R fold_right fadd].
  - f_equal. lra.
  - rewrite IH. f_equal. unfold present_heights, sum_R. lra.
  - rewrite IH. f_equal. unfold present_heights, sum_R. lra.
Qed.

Lemma np_mean_present (t : list (option R * R)) :
  present_heights t <> [] ->
  np_mean (map (fun r => height_of (fst r)) t)
  = Fin (mean_R (present_heights t)).
Proof.
  intros Hne. unfold np_mean. cbv zeta.
  rewrite count_present. unfold np_sum. rewrite sum_present.
  destruct (present_heights t) as [|h l] eqn:E; [ contradiction | ].
  cbn [List.length Nat.eqb].
  rewrite fdiv_Fin by (apply not_0_INR; discriminate).
  unfold mean_R. cbn [List.length]. f_equal. f_equal. lra.
Qed.

Lemma sum_R_between (lo hi : R) (l : list R) :
  Forall (fun h => lo <= h <= hi) l ->
  lo * INR (List.length l) <= sum_R l <= hi * INR (List.length l).
Proof.
  induction 1 as [|h l Hh _ IH].
  - simpl. lra.
  - change (sum_R (h :: l)) with (h + sum_R l).
    change (List.length (h :: l)) with (S (List.length l)).
    rewrite S_INR. lra.
Qed.

Lemma mean_R_between (lo hi : R) (l : list R) :
  l <> [] ->
  Forall (fun h => lo <= h <= hi) l ->
  lo <= mean_R l <= hi.
Proof.
  intros Hne H. destruct (sum_R_between lo hi l H) as [Hl Hu].
  assert (Hn : 0 < INR (List.length l)).
  { apply lt_0_INR. destruct l; [ contradiction | simpl; lia ]. }
  unfold mean_R.
  assert (Hq : sum_R l / INR (List.length l) * INR (List.length l) = sum_R l)
    by (field; lra).
  split; apply Rmult_le_reg_r with (r := INR (List.length l)); lra.
Qed.

(** X10 (The mean height skips missing heights).  In exact arithmetic,
    when the heights that are present lie between [lo] and [hi] and at
    least one is present, [get_z_parameters] pairs what
    [compute_effective_z] returns with the mean of the heights that are
    present, a finite number between [lo] and [hi]: the rows without
    height do not count.  A rounded sum over a count can leave
    [lo, hi] by the last digit. *)
Theorem mean_height_skips_missing (t : list (option R * R))
  (stability : option string) (lo hi : R) :
  Forall (fun r => forall h, fst r = Some h -> lo <= h <= hi) t ->
  Exists (fun r => fst r <> None) t ->
  get_z_parameters (rows_of t) stability
  = (z <- compute_effective_z (map (fun r => height_of (fst r)) t)
            (map snd t) stability ;;
     ret (z, Fin (mean_R (present_heights t)))) /\
  lo <= mean_R (present_heights t) <= hi.
Proof.
  intros Hrange Hsome.
  assert (Hne : present_heights t <> []).
  { apply Exists_exists in Hsome. destruct Hsome as [[o x] [Hr Ho]].
    cbn [fst] in Ho. destruct o as [h|]; [ | contradiction ].
    intros E. assert (Hin : In h (present_heights t)).
    { unfold present_heights. apply in_flat_map.
      exists (Some h, x). split; [ exact Hr | now left ]. }
    rewrite E in Hin. contradiction. }
  split.
  - unfold get_z_parameters.
    rewrite rows_of_heights, rows_of_positions, np_mean_present by exact Hne.
    reflexivity.
  - apply mean_R_between; [ exact Hne | ].
    apply Forall_forall. intros h Hin.
    unfold present_heights in Hin. apply in_flat_map in Hin.
    destruct Hin as [[o x] [Hr Ho]]. cbn [fst] in Ho.
    destruct o as [h'|]; [ | contradiction ].
    destruct Ho as [<- | []].
    exact (proj1 (Forall_forall _ _) Hrange (Some h', x) Hr h' eq_refl).
Qed.

Lemma mean_height_skips_missing_witness :
  get_z_parameters [(Fin 12, 0); (NaN, 0.4); (Fin 18, 1)]
    (Some "stable"%string)
  = (z <- compute_effective_z [Fin 12; NaN; Fin 18] [0; 0.4; 1]
            (Some "stable"%string) ;;
     ret (z, Fin (mean_R [12; 18]))) /\
  12 <= mean_R [12; 18] <= 18.
Proof.
  apply (mean_height_skips_missing [(Some 12, 0); (None, 0.4); (Some 18, 1)]
           (Some "stable"%string) 12 18).
  - repeat (apply Forall_cons;
            [ cbn [fst]; intros h E; inversion E; subst; lra | ]).
    apply Forall_nil.
  - apply Exists_cons_hd. discriminate.
Defined.

(** X11 (The outcomes of [get_z_parameters]).  [get_z_parameters]
    returns for every stability that [define_stability] recognises,
    with the mean of the heights as second component, and it fails only
    with the error of [define_stability]: both columns come from the same
    rows, so the shapes always fit. *)
Theorem get_z_parameters_outcomes (transect_data : list (pyfloat * R))
  (stability_condition : option string) :
  (exists (out : list string) (b : R) (z : pyfloat),
     define_stability stability_condition = (out, Returns b) /\
     get_z_parameters transect_data stability_condition
     = (out, Returns (z, np_mean (map fst transect_data)))) \/
  (exists msg : string,
     define_stability stability_condition
     = ([], Raises (NotImplementedError msg)) /\
     get_z_parameters transect_data stability_condition
     = ([], Raises (NotImplementedError msg))).
Proof.
  assert (Hlen : List.length (map fst transect_data)
                 = List.length (map snd transect_data))
    by (now rewrite !length_map).
  destruct (define_stability stability_condition) as [out [b | e]] eqn:Hd.
  - left. exists out, b. eexists. split; [ reflexivity | ].
    unfold get_z_parameters.
    rewrite (compute_effective_z_returns _ _ _ out b Hd Hlen).
    unfold bind, ret. cbn [fst snd]. rewrite app_nil_r. reflexivity.
  - right. unfold get_z_parameters, compute_effective_z.
    revert Hd. unfold define_stability.
    destruct (falsy stability_condition); [ discriminate | ].
    destruct (dict_get stability_dict (name_of stability_condition));
      [ discriminate | ].
    intros Hd. injection Hd as <- <-.
    eexists. split; reflexivity.
Qed.

(** ** The direction of the path *)

(** The kernel is the same at [x] and at [1 - x]. *)
Lemma bessel_second_reflect (x : R) :
  bessel_second (1 - x) = bessel_second x.
Proof.
  replace (1 - x) with (0.5 + (0.5 - x)) by lra.
  rewrite bessel_second_mirror. f_equal. lra.
Qed.

Lemma path_weighting_reflect (path_coordinates : list R) :
  path_weighting (map (fun x => 1 - x) (rev path_coordinates))
  = rev (path_weighting path_coordinates).
Proof.
  rewrite !path_weighting_map, map_map, map_rev.
  f_equal. apply map_ext. intros x. now rewrite bessel_second_reflect.
Qed.

Lemma zip_with_app {A B C : Type} (f : A -> B -> C)
  (a a' : list A) (b b' : list B) :
  List.length a = List.length b ->
  zip_with f (a ++ a') (b ++ b') = zip_with f a b ++ zip_with f a' b'.
Proof.
  unfold zip_with. revert b.
  induction a as [|x a IH]; intros [|y b] Hlen; try discriminate.
  - reflexivity.
  - cbn [app combine map]. f_equal. apply IH. now injection Hlen.
Qed.

Lemma zip_with_rev {A B C : Type} (f : A -> B -> C)
  (a : list A) (b : list B) :
  List.length a = List.length b ->
  zip_with f (rev a) (rev b) = rev (zip_with f a b).
Proof.
  revert b.
  induction a as [|x a IH]; intros [|y b] Hlen; try discriminate.
  - reflexivity.
  - injection Hlen as Hlen. cbn [rev].
    rewrite zip_with_app by (now rewrite !length_rev).
    rewrite IH by exact Hlen. reflexivity.
Qed.

(** Appending a sample adds one trapezium. *)
Lemma trapz_snoc (l : list pyfloat) (a b : pyfloat) :
  trapz (l ++ [a; b])
  = fadd (trapz (l ++ [a])) (fdiv (fmul (Fin 1) (fadd b a)) (Fin 2)).
Proof.
  induction l as [|x [|y l] IH].
  - cbn [app]. rewrite trapz_cons, !trapz_one. now rewrite fadd_0_l, fadd_0_r.
  - cbn [app] in *. rewrite (trapz_cons x a [b]), IH, (trapz_cons x a []).
    apply fadd_assoc.
  - cbn [app] in *.
    rewrite (trapz_cons x y (l ++ [a; b])), IH, (trapz_cons x y (l ++ [a])).
    apply fadd_assoc.
Qed.

(** The trapezoidal sum does not depend on the direction of the
    samples. *)
Lemma trapz_rev (l : list pyfloat) : trapz (rev l) = trapz l.
Proof.
  induction l as [|y0 [|y1 l] IH]; try reflexivity.
  change (rev (y0 :: y1 :: l)) with ((rev l ++ [y1]) ++ [y0]).
  rewrite <- app_assoc. cbn [app].
  rewrite trapz_snoc.
  change (rev l ++ [y1]) with (rev (y1 :: l)).
  rewrite IH, trapz_cons, (fadd_comm y0 y1). apply fadd_comm.
Qed.

Lemma np_multiply_rev (a b : list pyfloat) :
  np_multiply (rev a) (rev b)
  = (fst (np_multiply a b),
     match snd (np_multiply a b) with
     | Returns l => Returns (rev l)
     | Raises e => Raises e
     end).
Proof.
  unfold np_multiply. rewrite !length_rev.
  destruct (Nat.eqb (List.length a) (List.length b)) eqn:E.
  - apply Nat.eqb_eq in E. rewrite zip_with_rev by exact E. reflexivity.
  - destruct b as [|w [|w' b]].
    + reflexivity.
    + cbn [rev app ret fst snd]. now rewrite map_rev.
    + destruct (rev (w :: w' :: b)) as [|v [|v' r]] eqn:Er;
        try reflexivity.
      apply (f_equal (@List.length pyfloat)) in Er.
      rewrite length_rev in Er. discriminate.
Qed.

(** X12 (The direction of the path).  Reading a transect from the other
    end, with the rows in reverse order and every position [x] replaced
    by [1 - x], changes nothing: [compute_effective_z] prints, returns or
    raises the same, whatever the shapes of its arguments.  The sums are
    exact here; binary64 additions in the other order may round the last
    digits differently. *)
Theorem effective_height_direction (path_heights : list pyfloat)
  (path_positions : list R) (stability : option string) :
  compute_effective_z (rev path_heights)
    (map (fun x => 1 - x) (rev path_positions)) stability
  = compute_effective_z path_heights path_positions stability.
Proof.
  unfold compute_effective_z.
  destruct (define_stability stability) as [out [b | e]];
    [ | reflexivity ].
  unfold bind at 1 3. cbn [fst snd].
  rewrite path_weighting_reflect, !map_rev, np_multiply_rev.
  destruct (np_multiply (map (fun h => fpow h b) path_heights)
              (map Fin (path_weighting path_positions)))
    as [out' [w | e]]; cbn [fst snd]; [ | reflexivity ].
  unfold bind, ret. cbn [fst snd].
  now rewrite map_rev, !trapz_rev.
Qed.

(** ** Raising the path *)

Lemma trapz_R_map_le2 {A : Type} (P : A -> A -> Prop) (F G : A -> R)
  (l l' : list A) :
  Forall2 P l l' ->
  (forall a a', P a a' -> F a <= G a') ->
  trapz_R (map F l) <= trapz_R (map G l').
Proof.
  intros H HP.
  induction H as [|a a' l l' Ha Hrest IH]; [ simpl; lra | ].
  destruct Hrest as [|a1 a1' l1 l1' Ha1 Hrest]; [ simpl; lra | ].
  assert (H0 := HP _ _ Ha). assert (H1 := HP _ _ Ha1).
  cbn [map trapz_R] in *. lra.
Qed.

Lemma raised_weight_sum (t t' : list (R * R)) :
  raised t t' -> weight_sum t = weight_sum t'.
Proof.
  intros H. unfold weight_sum. apply Rle_antisym.
  - apply (trapz_R_map_le2 _ _ _ _ _ H). intros r r' [-> _]. lra.
  - apply Rge_le, Rle_ge.
    assert (H' : Forall2 (fun r' r => snd r = snd r') t' t).
    { induction H as [|r r' t t' [Hr _] _ IH]; constructor; assumption. }
    apply (trapz_R_map_le2 _ _ _ _ _ H'). intros r' r ->. lra.
Qed.

(** X13 (Raising the path).  Of two transects over the same positions,
    each of at least two rows with positions in [0, 1] and positive
    heights, the one that is nowhere lower has the effective height that
    is not lower, for every recognised stability. *)
Theorem effective_height_monotone (t t' : list (R * R))
  (stability : option string) (out : list string) (b : R) :
  define_stability stability = (out, Returns b) ->
  regular t ->
  regular t' ->
  raised t t' ->
  exists z z' : R,
    compute_effective_z (map Fin (map fst t)) (map snd t) stability
    = (out, Returns (Fin z)) /\
    compute_effective_z (map Fin (map fst t')) (map snd t') stability
    = (out, Returns (Fin z')) /\
    z <= z'.
Proof.
  intros Hb Hreg Hreg' Hraised.
  assert (Hb0 := define_stability_nonzero _ _ _ Hb).
  rewrite (compute_effective_z_regular t stability out b Hb Hreg).
  rewrite (compute_effective_z_regular t' stability out b Hb Hreg').
  eexists. eexists. split; [ reflexivity | ]. split; [ reflexivity | ].
  rewrite <- (raised_weight_sum t t' Hraised).
  assert (HD := weight_sum_pos t Hreg).
  assert (HN := power_sum_pos b t Hreg).
  assert (HN' := power_sum_pos b t' Hreg').
  assert (Hpos : forall r, In r t -> 0 < fst r).
  { intros r Hr.
    exact (proj1 (proj1 (Forall_forall _ _) (proj2 Hreg) r Hr)). }
  assert (Hw : forall r, In r t -> 0 < Spec.pathWeight (snd r)).
  { intros r Hr. apply pathWeight_unit.
    exact (proj2 (proj1 (Forall_forall _ _) (proj2 Hreg) r Hr)). }
  assert (Hraised' :
    Forall2 (fun r r' => (0 < fst r /\ 0 < Spec.pathWeight (snd r)) /\
                         snd r = snd r' /\ fst r <= fst r') t t').
  { clear - Hraised Hpos Hw.
    induction Hraised as [|r r' t t' Hr _ IH]; constructor.
    - split; [ split | exact Hr ].
      + apply Hpos. now left.
      + apply Hw. now left.
    - apply IH; intros r0 Hr0; [ apply Hpos | apply Hw ]; now right. }
  assert (Hq : forall n n', 0 < n -> n <= n' ->
               0 < n / weight_sum t <= n' / weight_sum t).
  { intros n n' Hn Hnn'. split.
    - now apply Rdiv_lt_0_compat.
    - unfold Rdiv. apply Rmult_le_compat_r; [ | exact Hnn' ].
      left. now apply Rinv_0_lt_compat. }
  destruct (Rlt_le_dec 0 b) as [Hbpos | Hbneg].
  - apply Rle_Rpower_l.
    + left. apply Rdiv_lt_0_compat; lra.
    + apply Hq; [ exact HN | ].
      unfold power_sum. apply (trapz_R_map_le2 _ _ _ _ _ Hraised').
      intros r r' [[Hh Hwr] [<- Hle]].
      apply Rmult_le_compat_r; [ lra | ].
      apply Rle_Rpower_l; lra.
  - apply Rpower_antitone.
    + left. unfold Rdiv. rewrite Rmult_1_l. apply Rinv_lt_0_compat. lra.
    + apply Hq; [ exact HN' | ].
      unfold power_sum.
      assert (Hflip :
        Forall2 (fun r' r => (0 < fst r /\ 0 < Spec.pathWeight (snd r)) /\
                             snd r = snd r' /\ fst r <= fst r') t' t).
      { clear - Hraised'.
        induction Hraised' as [|r r' t t' Hr _ IH]; constructor; assumption. }
      apply (trapz_R_map_le2 _ _ _ _ _ Hflip).
      intros r' r [[Hh Hwr] [<- Hle]].
      apply Rmult_le_compat_r; [ lra | ].
      apply Rpower_antitone; lra.
Qed.

Lemma effective_height_monotone_witness :
  exists z z' : R,
    compute_effective_z [Fin 12; Fin 30; Fin 18] [0; 0.4; 1]
      (Some "unstable"%string)
    = ([], Returns (Fin z)) /\
    compute_effective_z [Fin 13; Fin 30; Fin 20] [0; 0.4; 1]
      (Some "unstable"%string)
    = ([], Returns (Fin z')) /\
    z <= z'.
Proof.
  apply (effective_height_monotone [(12, 0); (30, 0.4); (18, 1)]
           [(13, 0); (30, 0.4); (20, 1)]
           (Some "unstable"%string) [] (-4 / 3)).
  - reflexivity.
  - split; [ simpl; lia | repeat constructor; simpl; lra ].
  - split; [ simpl; lia | repeat constructor; simpl; lra ].
  - repeat constructor; simpl; lra.
Defined.
